(** * NPSAT: stream catalog (streams.h) and steady-state flow driver
      (steady_state.h)

    A shallow embedding of the two headers.  [double] values are modelled
    by the rationals of the Standard Library (exact arithmetic, no
    rounding, no NaN); [std::vector] by lists with stdpp's lookup, insert
    and [resize]; an access outside a vector (undefined behaviour in C++)
    by the distinguished outcome [OutOfRange].  Functions of deal.II, CGAL
    and Boost, and the helpers of the headers that are not part of these
    two files, are section variables; the two routines of cgal_functions.h
    that [get_stream_recharge] calls are given in addition as the spec
    describes them. *)

From Stdlib Require Import QArith Qabs Lia Sorted.
From stdpp Require Import base option list.

Local Open Scope Q_scope.

(** ** Outcomes of code that indexes vectors *)

Inductive outcome (T : Type) : Type :=
| Ok (v : T)
| OutOfRange.
Arguments Ok {T} v.
Arguments OutOfRange {T}.

#[global] Instance outcome_ret : MRet outcome := fun _ v => Ok v.
#[global] Instance outcome_bind : MBind outcome := fun _ _ f m =>
  match m with
  | Ok v => f v
  | OutOfRange => OutOfRange
  end.

(** [v[i]] on a [std::vector]. *)
Definition at_ {T} (v : list T) (i : nat) : outcome T :=
  match v !! i with
  | Some x => Ok x
  | None => OutOfRange
  end.

Definition is_ok {T} (o : outcome T) : bool :=
  match o with Ok _ => true | OutOfRange => false end.

(** ** Numbers *)

Abbreviation double := Q (only parsing).

(** [x < y] and [x <= y] on doubles, as booleans. *)
Definition dlt (x y : double) : bool := (Qnum x * QDen y <? Qnum y * QDen x)%Z.
Definition dle (x y : double) : bool := Qle_bool x y.

Module Streams.

(** ** Data *)

(** [Point<dim-1>] and [Point<dim>] for [dim = 3], the only dimension in
    which the constructor builds the scratch triangulations. *)
Record Point2 : Type := mkPoint2 { p2x : double; p2y : double }.
Record Point3 : Type := mkPoint3 { p3x : double; p3y : double; p3z : double }.

Record ine_Triangle : Type :=
  mk_Triangle { tri_a : Point3; tri_b : Point3; tri_c : Point3 }.

(** The class members; the per-segment vectors [A], [B], [Q_rate], [length],
    [width], [Xmax], ... carry the prefix [st_].  [stream_tree] is the AABB
    tree, represented by the triangles inserted into it; [tria] and
    [river_rect] are the one-cell scratch triangulations, represented by the
    vertices of their cell.  Segment ids are below 2^31, where the
    conversion of the loop counter to the [int] of [stream_ids] changes
    nothing. *)
Record Streams : Type := mkStreams {
  st_A : list Point2;
  st_B : list Point2;
  st_Q_rate : list double;
  st_length : list double;
  st_width : list double;
  stream_triangles : list ine_Triangle;
  stream_ids : list nat;
  stream_tree : list ine_Triangle;
  N_seg : nat;
  river_outline : list (list Point2);
  st_Xmax : list double;
  st_Xmin : list double;
  st_Ymin : list double;
  st_Ymax : list double;
  st_Xoutline : list (list double);
  st_Youtline : list (list double);
  tria : list Point2;
  river_rect : list Point2
}.

Definition unit_cell : list Point2 :=
  [mkPoint2 0 0; mkPoint2 1 0; mkPoint2 0 1; mkPoint2 1 1].

(** The constructor [Streams<3>::Streams()]. *)
Definition Streams_init : Streams :=
  {| st_A := []; st_B := []; st_Q_rate := []; st_length := []; st_width := [];
     stream_triangles := []; stream_ids := []; stream_tree := []; N_seg := 0;
     river_outline := [];
     st_Xmax := []; st_Xmin := []; st_Ymin := []; st_Ymax := [];
     st_Xoutline := []; st_Youtline := [];
     tria := unit_cell; river_rect := unit_cell |}.

(** The stream input file, as the extractions see it.  [file_header] is
    what [inp >> N_seg] stores from the first line: [Some n] when it stores
    [n], [None] when it stores nothing, which happens only when the line
    holds no character but blanks (the stream is at its end before a
    character of a number is read, and [N_seg] is left as it was).  A
    first line that starts with text that is not a number is [Some 0]:
    since C++11 the failed conversion stores 0.
    [file_lines] holds, for each following line, the values that the
    successive extractions of a [double] store. *)
Record stream_file : Type := mk_file {
  file_header : option nat;
  file_lines : list (list double)
}.

(** [datafile.getline(buffer,512)]: the next line, or an empty buffer at
    the end of the file. *)
Definition getline (lines : list (list double)) : list double * list (list double) :=
  match lines with
  | [] => ([], [])
  | l :: rest => (l, rest)
  end.

(** [inp >> v]: the next value of the line; at the end of the line (and
    once an earlier extraction has failed) the extraction stores nothing
    and [v] keeps its value. *)
Definition extract (v : double) (inp : list double) : double * list double :=
  match inp with
  | [] => (v, [])
  | t :: rest => (t, rest)
  end.

(** The ids [i, i, i+1, i+1, ...] of the triangles of [n] segments, from
    segment [i] on. *)
Definition tags (i n : nat) : list nat := flat_map (fun k => [k; k]) (seq i n).

Section Catalog.

(** [sqrt] of the C library. *)
Variable sqrt : double -> double.

(** [line_line_intersection(b1, m1, b2, m2, x, y)] of helper_functions.h:
    [Some (x, y)] when it returns true. *)
Variable line_line_intersection :
  double -> double -> double -> double -> option (double * double).

(** [Point<2>::distance] of deal.II. *)
Definition distance (a b : Point2) : double :=
  sqrt ((p2x a - p2x b) * (p2x a - p2x b) + (p2y a - p2y b) * (p2y a - p2y b)).

Definition push_back {T} (v : list T) (x : T) : list T := v ++ [x].

Definition push_intersection (r : option (double * double))
    (o : list double * list double) : list double * list double :=
  match r with
  | Some (x, y) => (push_back (fst o) x, push_back (snd o) y)
  | None => o
  end.

(** [create_river_outline(xx, yy, A, B, width)]: the result is the pair of
    the vectors [xx] and [yy].  [abs] is the absolute value on doubles, and
    [pow(m,2)] the square. *)
Definition create_river_outline (a b : Point2) (width : double)
    : list double * list double :=
  let ax := p2x a in let ay := p2y a in
  let bx := p2x b in let by_ := p2y b in
  if dlt (Qabs (ax - bx)) 0.1 && dlt (Qabs (ay - by_)) 0.1 then
    ([], [])
  else if dlt (Qabs (ax - bx)) 0.1 then
    ([ax - width; ax + width; bx - width; bx + width], [ay; ay; by_; by_])
  else if dlt (Qabs (ay - by_)) 0.1 then
    ([ax; ax; bx; bx], [ay - width; ay + width; by_ - width; by_ + width])
  else
    let m := (by_ - ay) / (bx - ax) in
    let b := ay - m * ax in
    let b1 := b - width * sqrt (m ^ 2 + 1) in
    let b2 := width * sqrt (m ^ 2 + 1) + b in
    let m_p := - (1 / m) in
    let b_a := ay - m_p * ax in
    let b_b := by_ - m_p * bx in
    push_intersection (line_line_intersection b_b m_p b1 m)
      (push_intersection (line_line_intersection b_b m_p b2 m)
        (push_intersection (line_line_intersection b_a m_p b2 m)
          (push_intersection (line_line_intersection b_a m_p b1 m) ([], [])))).

(** The bounding box of one segment: [(Xmin, Xmax, Ymin, Ymax)]. *)
Record bbox : Type := mk_bbox {
  bb_Xmin : double; bb_Xmax : double; bb_Ymin : double; bb_Ymax : double
}.

Definition bbox_start : bbox :=
  {| bb_Xmin := 100000000; bb_Xmax := -100000000;
     bb_Ymin := 100000000; bb_Ymax := -100000000 |}.

(** One pass of the loop over [j] in [read_streams]. *)
Definition bbox_step (bb : bbox) (x y : double) : bbox :=
  {| bb_Xmin := if dlt x (bb_Xmin bb) then x else bb_Xmin bb;
     bb_Xmax := if dlt (bb_Xmax bb) x then x else bb_Xmax bb;
     bb_Ymin := if dlt y (bb_Ymin bb) then y else bb_Ymin bb;
     bb_Ymax := if dlt (bb_Ymax bb) y then y else bb_Ymax bb |}.

(** [for (j = 0; j < xx.size(); ++j)]: [xs] is the part of [xx] from
    index [j] on. *)
Fixpoint bbox_loop (xs : list double) (j : nat) (yy : list double) (bb : bbox)
    : outcome bbox :=
  match xs with
  | [] => Ok bb
  | x :: xs' => y ← at_ yy j; bbox_loop xs' (S j) yy (bbox_step bb x y)
  end.

(** The locals [double x, y, q, w] of [read_streams]. *)
Record locals : Type := mk_locals { lx : double; ly : double; lq : double; lw : double }.

Definition ine_Point3 (x y z : double) : Point3 := mkPoint3 x y z.

(** The body of the loop over [i] in [read_streams], on the line [buffer]. *)
Definition read_segment (i : nat) (buffer : list double) (v : locals) (s : Streams)
    : outcome (locals * Streams) :=
  let '(x, inp) := extract (lx v) buffer in
  let '(y, inp) := extract (ly v) inp in
  let a := mkPoint2 x y in
  let '(x, inp) := extract x inp in
  let '(y, inp) := extract y inp in
  let b := mkPoint2 x y in
  let '(q, inp) := extract (lq v) inp in
  let '(w, inp) := extract (lw v) inp in
  let '(xx, yy) := create_river_outline a b w in
  bb ← bbox_loop xx 0 yy bbox_start;
  x0 ← at_ xx 0; y0 ← at_ yy 0;
  x1 ← at_ xx 1; y1 ← at_ yy 1;
  x2 ← at_ xx 2; y2 ← at_ yy 2;
  let t1 := mk_Triangle (ine_Point3 x0 y0 0) (ine_Point3 x1 y1 0) (ine_Point3 x2 y2 0) in
  x3 ← at_ xx 3; y3 ← at_ yy 3;
  let t2 := mk_Triangle (ine_Point3 x1 y1 0) (ine_Point3 x3 y3 0) (ine_Point3 x2 y2 0) in
  mret (mk_locals x y q w,
        {| st_A := <[i := a]> (st_A s);
           st_B := <[i := b]> (st_B s);
           st_Q_rate := <[i := q]> (st_Q_rate s);
           st_length := <[i := distance a b]> (st_length s);
           st_width := <[i := w]> (st_width s);
           stream_triangles := push_back (push_back (stream_triangles s) t1) t2;
           stream_ids := push_back (push_back (stream_ids s) i) i;
           stream_tree := stream_tree s;
           N_seg := N_seg s;
           river_outline := river_outline s;
           st_Xmax := <[i := bb_Xmax bb]> (st_Xmax s);
           st_Xmin := <[i := bb_Xmin bb]> (st_Xmin s);
           st_Ymin := <[i := bb_Ymin bb]> (st_Ymin s);
           st_Ymax := <[i := bb_Ymax bb]> (st_Ymax s);
           st_Xoutline := <[i := xx]> (st_Xoutline s);
           st_Youtline := <[i := yy]> (st_Youtline s);
           tria := tria s;
           river_rect := river_rect s |}).

(** [for (i = 0; i < N_seg; ++i)], with [n] passes left. *)
Fixpoint read_segments (n i : nat) (lines : list (list double)) (v : locals)
    (s : Streams) : outcome Streams :=
  match n with
  | O => Ok s
  | S n' =>
      let '(buffer, rest) := getline lines in
      r ← read_segment i buffer v s;
      read_segments n' (S i) rest (fst r) (snd r)
  end.

(** The eleven [resize(N_seg)] calls, after [inp >> N_seg]. *)
Definition resize_all (n : nat) (s : Streams) : Streams :=
  {| st_A := resize n (mkPoint2 0 0) (st_A s);
     st_B := resize n (mkPoint2 0 0) (st_B s);
     st_Q_rate := resize n 0 (st_Q_rate s);
     st_length := resize n 0 (st_length s);
     st_width := resize n 0 (st_width s);
     stream_triangles := stream_triangles s;
     stream_ids := stream_ids s;
     stream_tree := stream_tree s;
     N_seg := n;
     river_outline := river_outline s;
     st_Xmax := resize n 0 (st_Xmax s);
     st_Xmin := resize n 0 (st_Xmin s);
     st_Ymin := resize n 0 (st_Ymin s);
     st_Ymax := resize n 0 (st_Ymax s);
     st_Xoutline := resize n [] (st_Xoutline s);
     st_Youtline := resize n [] (st_Youtline s);
     tria := tria s;
     river_rect := river_rect s |}.

(** [stream_tree.insert(stream_triangles.begin(), stream_triangles.end())]. *)
Definition tree_insert (s : Streams) : Streams :=
  {| st_A := st_A s; st_B := st_B s; st_Q_rate := st_Q_rate s;
     st_length := st_length s; st_width := st_width s;
     stream_triangles := stream_triangles s;
     stream_ids := stream_ids s;
     stream_tree := stream_tree s ++ stream_triangles s;
     N_seg := N_seg s;
     river_outline := river_outline s;
     st_Xmax := st_Xmax s; st_Xmin := st_Xmin s;
     st_Ymin := st_Ymin s; st_Ymax := st_Ymax s;
     st_Xoutline := st_Xoutline s; st_Youtline := st_Youtline s;
     tria := tria s; river_rect := river_rect s |}.

(** [read_streams(namefile)].  [datafile] is [None] when the file cannot be
    opened; [uninit] holds the indeterminate values of the uninitialised
    locals.  [N_seg] becomes what [inp >> N_seg] stores; it keeps its value
    only on an empty first line ([file_header f = None]).  The result is
    the returned flag and the object after the call. *)
Definition read_streams (uninit : locals) (datafile : option stream_file)
    (s : Streams) : outcome (bool * Streams) :=
  match datafile with
  | None => Ok (false, s)
  | Some f =>
      let n := match file_header f with Some n => n | None => N_seg s end in
      s' ← read_segments n 0 (file_lines f) uninit (resize_all n s);
      mret (true, tree_insert s')
  end.

(** *** Notions used to state the properties of the catalog *)

(** The per-segment vectors all have [n] entries. *)
Definition sized (n : nat) (s : Streams) : Prop :=
  length (st_A s) = n /\ length (st_B s) = n /\ length (st_Q_rate s) = n /\
  length (st_length s) = n /\ length (st_width s) = n /\
  length (st_Xoutline s) = n /\ length (st_Youtline s) = n /\
  length (st_Xmin s) = n /\ length (st_Xmax s) = n /\
  length (st_Ymin s) = n /\ length (st_Ymax s) = n.

(** Segment [i] is stored with the distance of its end points as its length,
    with the outline computed from its end points and width, and with a
    bounding box that holds every vertex of that outline. *)
Definition segment_measured (s : Streams) (i : nat) : Prop :=
  exists a b w xx yy xmin xmax ymin ymax,
    st_A s !! i = Some a /\ st_B s !! i = Some b /\ st_width s !! i = Some w /\
    st_Xoutline s !! i = Some xx /\ st_Youtline s !! i = Some yy /\
    st_Xmin s !! i = Some xmin /\ st_Xmax s !! i = Some xmax /\
    st_Ymin s !! i = Some ymin /\ st_Ymax s !! i = Some ymax /\
    st_length s !! i = Some (distance a b) /\
    create_river_outline a b w = (xx, yy) /\
    (length xx <= 4)%nat /\ length yy = length xx /\
    forall j (x y : double), xx !! j = Some x -> yy !! j = Some y ->
      xmin <= x /\ x <= xmax /\ ymin <= y /\ y <= ymax.

(** The two triangles of segment [i] are the triangles on the vertices
    (0,1,2) and (1,3,2) of its stored outline, at height 0, at the places
    [first + 2 i] and [first + 2 i + 1] of [stream_triangles]. *)
Definition triangles_of_outline (first : nat) (s : Streams) (i : nat) : Prop :=
  exists x0 x1 x2 x3 y0 y1 y2 y3,
    st_Xoutline s !! i = Some [x0; x1; x2; x3] /\
    st_Youtline s !! i = Some [y0; y1; y2; y3] /\
    stream_triangles s !! (first + 2 * i)%nat =
      Some (mk_Triangle (ine_Point3 x0 y0 0) (ine_Point3 x1 y1 0) (ine_Point3 x2 y2 0)) /\
    stream_triangles s !! (first + 2 * i + 1)%nat =
      Some (mk_Triangle (ine_Point3 x1 y1 0) (ine_Point3 x3 y3 0) (ine_Point3 x2 y2 0)).

(** A line of the file that holds the six numbers of a record whose outline
    has its four vertices. *)
Definition well_formed_record (line : list double) : bool :=
  match line with
  | [ax; ay; bx; by_; q; w] =>
      (length (fst (create_river_outline (mkPoint2 ax ay) (mkPoint2 bx by_) w)) =? 4)%nat
  | _ => false
  end.

End Catalog.

(** ** Point query *)

Definition set_river_rect (cell : list Point2) (s : Streams) : Streams :=
  {| st_A := st_A s; st_B := st_B s; st_Q_rate := st_Q_rate s;
     st_length := st_length s; st_width := st_width s;
     stream_triangles := stream_triangles s;
     stream_ids := stream_ids s;
     stream_tree := stream_tree s;
     N_seg := N_seg s;
     river_outline := river_outline s;
     st_Xmax := st_Xmax s; st_Xmin := st_Xmin s;
     st_Ymin := st_Ymin s; st_Ymax := st_Ymax s;
     st_Xoutline := st_Xoutline s; st_Youtline := st_Youtline s;
     tria := tria s; river_rect := cell |}.

(** [GeometryInfo<2>::vertices_per_cell]. *)
Definition vertices_per_cell : nat := 4.

(** The loop of [setup_river_rect] over the vertices of the scratch cell,
    with [n] passes left; it copies the first two coordinates of
    [outline[i]].  The parameter is declared [std::vector<Point<dim>>]
    (lines 145 and 290); the body reads [outline[i][0]] and [outline[i][1]]
    only, and the points are given here by these two coordinates. *)
Fixpoint setup_river_rect_loop (n i : nat) (outline cell : list Point2)
    : outcome (list Point2) :=
  match n with
  | O => Ok cell
  | S n' =>
      o ← at_ outline i;
      at_ cell i;;
      setup_river_rect_loop n' (S i) outline (<[i := mkPoint2 (p2x o) (p2y o)]> cell)
  end.

Definition setup_river_rect (outline : list Point2) (s : Streams) : outcome Streams :=
  cell ← setup_river_rect_loop vertices_per_cell 0 outline (river_rect s);
  mret (set_river_rect cell s).

(** *** The types at the call of [setup_river_rect] in [get_stream_rate]

    [get_stream_rate] passes [river_outline[i_seg]] to [setup_river_rect]
    (line 277).  The member is a vector of vectors of [Point<dim-1>]
    (line 77), the parameter a vector of [Point<dim>] (lines 145, 290). *)

(** The C++ types that occur there; [n] is the template argument of
    [Point]. *)
Inductive cpp_type : Type :=
| Point_ (n : Z)
| std_vector (T : cpp_type).

Fixpoint cpp_type_eqb (a b : cpp_type) : bool :=
  match a, b with
  | Point_ n, Point_ m => (n =? m)%Z
  | std_vector T, std_vector U => cpp_type_eqb T U
  | _, _ => false
  end.

(** The type of [river_outline[i_seg]] in [Streams<dim>]. *)
Definition river_outline_entry_type (dim : Z) : cpp_type :=
  std_vector (Point_ (dim - 1)%Z).

(** The type of the parameter [outline] of [Streams<dim>::setup_river_rect]. *)
Definition setup_river_rect_parameter_type (dim : Z) : cpp_type :=
  std_vector (Point_ dim).

(** An argument initialises a parameter passed by value when it has the
    type of the parameter: [std::vector] has no constructor from a vector
    of another element type, and [Point<n>] none from a point of another
    dimension. *)
Definition initialises (parameter argument : cpp_type) : bool :=
  cpp_type_eqb parameter argument.

(** The call at line 277 is well formed in [Streams<dim>], that is,
    [Streams<dim>::get_stream_rate] can be instantiated. *)
Definition get_stream_rate_instantiable (dim : Z) : bool :=
  initialises (setup_river_rect_parameter_type dim) (river_outline_entry_type dim).

(** The bounding-box test of [get_stream_rate], with the short-circuit
    evaluation of [&&]. *)
Definition in_bounding_box (p : Point3) (i_seg : nat) (s : Streams) : outcome bool :=
  xmin ← at_ (st_Xmin s) i_seg;
  if negb (dle xmin (p3x p)) then mret false else
  xmax ← at_ (st_Xmax s) i_seg;
  if negb (dle (p3x p) xmax) then mret false else
  ymin ← at_ (st_Ymin s) i_seg;
  if negb (dle ymin (p3y p)) then mret false else
  ymax ← at_ (st_Ymax s) i_seg;
  mret (dle (p3y p) ymax).

Section PointQuery.

(** [CellAccessor<2>::point_inside] of deal.II, on the vertices of the cell. *)
Variable point_inside : list Point2 -> Point2 -> bool.

(** The loop of [get_stream_rate] over [i_seg], with [n] passes left; the
    result is the returned rate and the object with its reshaped scratch
    cell.

    As written, the call [setup_river_rect(river_outline[i_seg])] does not
    type-check in any dimension ([get_stream_rate_instantiable] is false),
    so the compiled program has no run of this function.  The definition
    follows the body statement by statement with the call retyped: the
    entry of [river_outline] is handed to [setup_river_rect] as the vector
    of points that it is, which is what the body of [setup_river_rect]
    reads ([outline[i][0]] and [outline[i][1]]).  What is proved of it is
    therefore a property of the text of the function, not of a run of the
    program. *)
Fixpoint get_stream_rate_loop (n i_seg : nat) (p : Point3) (s : Streams)
    : outcome (double * Streams) :=
  match n with
  | O => Ok (0, s)
  | S n' =>
      inside ← in_bounding_box p i_seg s;
      if (inside : bool) then
        outline ← at_ (river_outline s) i_seg;
        s' ← setup_river_rect outline s;
        if point_inside (river_rect s') (mkPoint2 (p3x p) (p3y p)) then
          rate ← at_ (st_Q_rate s') i_seg;
          mret (rate, s')
        else get_stream_rate_loop n' (S i_seg) p s'
      else get_stream_rate_loop n' (S i_seg) p s
  end.

Definition get_stream_rate (p : Point3) (s : Streams) : outcome (double * Streams) :=
  get_stream_rate_loop (N_seg s) 0 p s.

End PointQuery.

(** ** Recharge of a cell *)

(** [std::map<int,int>]: the entries in ascending order of their keys. *)
Definition int_map : Type := list (nat * nat).

(** [m[k] = v]. *)
Fixpoint map_assign (k v : nat) (m : int_map) : int_map :=
  match m with
  | [] => [(k, v)]
  | (k', v') :: m' =>
      if (k <? k')%nat then (k, v) :: (k', v') :: m'
      else if (k =? k')%nat then (k, v) :: m'
      else (k', v') :: map_assign k v m'
  end.

(** What [polyXpoly] does: it returns the area and sets the centroid, or it
    throws. *)
Inductive clip_result : Type :=
| Clipped (area xc yc : double)
| ClipThrows.

Inductive message : Type :=
| Boost_failed_to_find_intersection.

(** The three output vectors [xc], [yc], [Q] and what was written to
    [std::cout]. *)
Record recharge : Type := mk_recharge {
  r_xc : list double;
  r_yc : list double;
  r_Q : list double;
  r_cout : list message
}.

Section Recharge.

(** [find_intersection_in_AABB_TREE(tree, triangles, xp, yp, ids)] of
    cgal_functions.h: the returned flag and the vector [ids]. *)
Variable find_intersection_in_AABB_TREE :
  list ine_Triangle -> list ine_Triangle -> list double -> list double ->
  bool * list nat.

(** [polyXpoly(x1, y1, x2, y2, xc, yc)]. *)
Variable polyXpoly :
  list double -> list double -> list double -> list double -> clip_result.

(** The loop that fills [unique_ids], over the part [ids] of the vector
    that is still to be visited. *)
Fixpoint collect_unique_ids (s : Streams) (ids : list nat) (unique_ids : int_map)
    : outcome int_map :=
  match ids with
  | [] => Ok unique_ids
  | t :: ids' =>
      k ← at_ (stream_ids s) t;
      collect_unique_ids s ids' (map_assign k k unique_ids)
  end.

(** One pass of the loop over the iterator [it], with its [try] block. *)
Definition recharge_step (s : Streams) (xp yp : list double) (it : nat * nat)
    (r : recharge) : outcome recharge :=
  xo ← at_ (st_Xoutline s) (fst it);
  yo ← at_ (st_Youtline s) (fst it);
  match polyXpoly xp yp xo yo with
  | Clipped area d_xc d_yc =>
      rate ← at_ (st_Q_rate s) (fst it);
      mret {| r_xc := r_xc r ++ [d_xc]; r_yc := r_yc r ++ [d_yc];
              r_Q := r_Q r ++ [area * rate]; r_cout := r_cout r |}
  | ClipThrows =>
      mret {| r_xc := r_xc r; r_yc := r_yc r; r_Q := r_Q r;
              r_cout := r_cout r ++ [Boost_failed_to_find_intersection] |}
  end.

Fixpoint recharge_loop (s : Streams) (xp yp : list double) (its : int_map)
    (r : recharge) : outcome recharge :=
  match its with
  | [] => Ok r
  | it :: its' => r' ← recharge_step s xp yp it r; recharge_loop s xp yp its' r'
  end.

Definition no_recharge : recharge :=
  {| r_xc := []; r_yc := []; r_Q := []; r_cout := [] |}.

(** [get_stream_recharge(xc, yc, Q, xp, yp)]: the returned flag and the
    output vectors. *)
Definition get_stream_recharge (s : Streams) (xp yp : list double)
    : outcome (bool * recharge) :=
  let '(tf, ids) :=
    find_intersection_in_AABB_TREE (stream_tree s) (stream_triangles s) xp yp in
  if tf then
    unique_ids ← collect_unique_ids s ids [];
    r ← recharge_loop s xp yp unique_ids no_recharge;
    mret (tf, r)
  else mret (tf, no_recharge).

(** *** Notions used to state the properties of the recharge *)

(** The result of clipping the footprint against the outline of segment
    [k]. *)
Definition clip (s : Streams) (xp yp : list double) (k : nat) : option clip_result :=
  xo ← st_Xoutline s !! k;
  yo ← st_Youtline s !! k;
  Some (polyXpoly xp yp xo yo).

Definition clip_throws (s : Streams) (xp yp : list double) (k : nat) : bool :=
  match clip s xp yp k with
  | Some ClipThrows => true
  | _ => false
  end.

(** The centroid and the weighted rate that segment [k] adds to the
    output. *)
Definition contribution (s : Streams) (xp yp : list double) (k : nat)
    : option (double * double * double) :=
  match clip s xp yp k with
  | Some (Clipped area xc yc) =>
      rate ← st_Q_rate s !! k; Some (xc, yc, area * rate)
  | _ => None
  end.

(** Segment [k] is a candidate: the tree query reports one of its
    triangles. *)
Definition candidate (s : Streams) (xp yp : list double) (k : nat) : Prop :=
  let r := find_intersection_in_AABB_TREE (stream_tree s) (stream_triangles s) xp yp in
  fst r = true /\ exists t, t ∈ snd r /\ stream_ids s !! t = Some k.

(** The tree query reports triangles of the catalog, and the ids of the
    catalog are those of stored segments. *)
Definition ids_in_range (s : Streams) (xp yp : list double) : Prop :=
  let r := find_intersection_in_AABB_TREE (stream_tree s) (stream_triangles s) xp yp in
  Forall (fun t => (t < length (stream_ids s))%nat) (snd r) /\
  Forall (fun k => (k < length (st_Xoutline s))%nat /\
                   (k < length (st_Youtline s))%nat /\
                   (k < length (st_Q_rate s))%nat) (stream_ids s).

End Recharge.

(** *** The two routines of cgal_functions.h

    [find_intersection_in_AABB_TREE] and [polyXpoly] are defined in
    cgal_functions.h, which is not among the two headers.  Above they are
    section variables.  Below they are given as the spec describes them
    (sections 4.2 and 4.3). *)

(** The exact intersection of two polygons: empty, or a region with its
    area and its centroid. *)
Inductive intersection : Type :=
| Empty
| Region (area xc yc : double).

(** The least and the greatest of the numbers of a list. *)
Definition lowest (l : list double) : option double :=
  match l with
  | [] => None
  | x :: l' => Some (fold_left (fun m y => if dlt y m then y else m) l' x)
  end.

Definition highest (l : list double) : option double :=
  match l with
  | [] => None
  | x :: l' => Some (fold_left (fun m y => if dlt m y then y else m) l' x)
  end.

(** The bounding volumes of the points with the coordinates [xs] and [ys],
    and of those with [xs'] and [ys'], overlap. *)
Definition bounding_volumes_overlap (xs ys xs' ys' : list double) : bool :=
  match lowest xs, highest xs, lowest ys, highest ys,
        lowest xs', highest xs', lowest ys', highest ys' with
  | Some xlo, Some xhi, Some ylo, Some yhi,
    Some xlo', Some xhi', Some ylo', Some yhi' =>
      dle xlo xhi' && dle xlo' xhi && dle ylo yhi' && dle ylo' yhi
  | _, _, _, _, _, _, _, _ => false
  end.

(** Modelled from the spec: [find_intersection_in_AABB_TREE] of
    cgal_functions.h, which is not among the headers.  Section 4.2: the
    query returns every entry "whose triangulated outline's bounding volume
    overlaps the query footprint's bounding volume", a conservative
    superset.  The entries are reported as the code stores them in [ids],
    by the index of the triangle in [triangles]; the flag tells whether
    there is any. *)
Definition overlapping_triangles (tree triangles : list ine_Triangle)
    (xp yp : list double) : bool * list nat :=
  let ids :=
    omap (fun '(i, t) =>
            if bounding_volumes_overlap
                 [p3x (tri_a t); p3x (tri_b t); p3x (tri_c t)]
                 [p3y (tri_a t); p3y (tri_b t); p3y (tri_c t)] xp yp
            then Some i else None)
         (imap (fun i t => (i, t)) triangles) in
  (match ids with [] => false | _ :: _ => true end, ids).

Section RoutinesOfTheSpec.

(** The geometry: the exact intersection of the polygon with the vertices
    [(x1[i], y1[i])] and the polygon with the vertices [(x2[i], y2[i])]. *)
Variable exact_intersection :
  list double -> list double -> list double -> list double -> intersection.

(** The pairs of polygons on which the clip routine fails. *)
Variable clip_fails :
  list double -> list double -> list double -> list double -> bool.

(** What the locals [d_xc] and [d_yc] of [get_stream_recharge], which are
    not initialised, hold when they are passed to the routine. *)
Variables d_xc d_yc : double.

(** Modelled from the spec: [polyXpoly] of cgal_functions.h, which is not
    among the headers.  Section 4.3: it is the routine that computes "the
    exact polygon-clip intersection of the cell footprint and the segment's
    buffered outline"; the intersection is empty or "yields an area and a
    centroid"; a failure of the routine is another outcome, the exception
    that [get_stream_recharge] catches (section 7).  An empty intersection
    is a result of the routine, not a failure of it: the routine returns,
    with the area of the empty intersection, 0, and with no centroid to
    store in [xc] and [yc]. *)
Definition polyXpoly_of_spec (x1 y1 x2 y2 : list double) : clip_result :=
  if clip_fails x1 y1 x2 y2 then ClipThrows
  else match exact_intersection x1 y1 x2 y2 with
       | Region area xc yc => Clipped area xc yc
       | Empty => Clipped 0 d_xc d_yc
       end.

(** What segment [k] adds to the output when the clip routine is that of
    the spec: nothing when the routine fails; the centroid and the area
    times the rate when the intersection is a region; the values of
    [d_xc] and [d_yc] and 0 times the rate when the intersection is
    empty. *)
Definition emitted (s : Streams) (xp yp : list double) (k : nat)
    : option (double * double * double) :=
  xo ← st_Xoutline s !! k;
  yo ← st_Youtline s !! k;
  if clip_fails xp yp xo yo then None
  else
    rate ← st_Q_rate s !! k;
    Some (match exact_intersection xp yp xo yo with
          | Region area xc yc => (xc, yc, area * rate)
          | Empty => (d_xc, d_yc, 0 * rate)
          end).

End RoutinesOfTheSpec.

(** ** The scratch cell of a mesh face *)

Definition set_tria (cell : list Point2) (s : Streams) : Streams :=
  {| st_A := st_A s; st_B := st_B s; st_Q_rate := st_Q_rate s;
     st_length := st_length s; st_width := st_width s;
     stream_triangles := stream_triangles s;
     stream_ids := stream_ids s;
     stream_tree := stream_tree s;
     N_seg := N_seg s;
     river_outline := river_outline s;
     st_Xmax := st_Xmax s; st_Xmin := st_Xmin s;
     st_Ymin := st_Ymin s; st_Ymax := st_Ymax s;
     st_Xoutline := st_Xoutline s; st_Youtline := st_Youtline s;
     tria := cell; river_rect := river_rect s |}.

(** The loop of [setup_cell] over the vertices of the scratch cell [tria],
    with [n] passes left; [top_face] holds the vertices of the face. *)
Fixpoint setup_cell_loop (n i : nat) (top_face : list Point3) (cell : list Point2)
    : outcome (list Point2) :=
  match n with
  | O => Ok cell
  | S n' =>
      at_ cell i;;
      f ← at_ top_face i;
      setup_cell_loop n' (S i) top_face (<[i := mkPoint2 (p3x f) (p3y f)]> cell)
  end.

Definition setup_cell (top_face : list Point3) (s : Streams) : outcome Streams :=
  cell ← setup_cell_loop vertices_per_cell 0 top_face (tria s);
  mret (set_tria cell s).

(** ** Notions used to state further properties *)

(** The cell that [setup_river_rect] shapes from an outline. *)
Definition outline_cell (outline : list Point2) : list Point2 :=
  (fun o => mkPoint2 (p2x o) (p2y o)) <$> take vertices_per_cell outline.

(** The plane projection of the vertices of a face. *)
Definition face_cell (top_face : list Point3) : list Point2 :=
  (fun f => mkPoint2 (p3x f) (p3y f)) <$> take vertices_per_cell top_face.

End Streams.

(** * The steady-state flow driver (steady_state.h) *)

Module GWFLOW.

(** ** Data *)

(** [TrilinosWrappers::MPI::Vector], [Vector<double>] and [FullMatrix<double>]. *)
Definition Vector : Type := list double.
Definition FullMatrix : Type := list (list double).

(** A face of a cell, as far as [assemble] looks at it. *)
Record Face : Type := mk_Face { at_boundary : bool; boundary_id : nat }.

(** An active cell: ownership, its faces in the order of [cell->face(i_face)],
    and its global DoF indices. *)
Record Cell : Type := mk_Cell {
  is_locally_owned : bool;
  cell_faces : list Face;
  get_dof_indices : list nat
}.

(** The [DoFHandler] after [distribute_dofs]. *)
Record DoFHandler : Type := mk_DoFHandler {
  n_dofs : nat;
  active_cells : list Cell
}.

(** [SolverControl(n, tol)]: at most [n] steps, stop when the residual is
    below [tol]. *)
Record SolverControl : Type := mk_SolverControl {
  max_steps : nat;
  tolerance : double
}.

(** What [SolverCG::solve] of deal.II does: on convergence it returns, the
    control holding the last step and the vector the solution; otherwise it
    throws [SolverControl::NoConvergence(last_step, last_residual)]. *)
Inductive solver_outcome : Type :=
| Converged (last_step : nat) (x : Vector)
| NotConverged (last_step : nat) (last_residual : double).

Inductive exception : Type :=
| NoConvergence (last_step : nat) (last_residual : double).

(** How a call ends. *)
Inductive completion : Type :=
| Normal
| Thrown (e : exception).

(** The calls to collaborators that the trace records, and one line
    written to [pcout]: "Solved in N iterations" ([ev_solved_in]).  The
    lines that open the methods ("Setting up system...", the number of
    degrees of freedom, "Assembling system...", "Solving system..." and
    "Printing results...") are written in every call of their method,
    before anything else is done there, and are not recorded; the events
    [ev_setup_system], [ev_solver_solve] and [ev_output] stand for the
    calls, not for these lines.  [streams.add_contributions] is the method
    declared in streams.h. *)
Inductive event : Type :=
| ev_setup_system
| ev_wells_add_contributions
| ev_streams_add_contributions
| ev_assemble
| ev_face_recharge (cell i_face : nat)
| ev_compress_matrix
| ev_compress_rhs
| ev_solver_solve (control : SolverControl)
| ev_solved_in (last_step : nat)
| ev_constraints_distribute
| ev_output (iter : nat).

Section Flow.

(** The template parameter. *)
Variable dim : nat.

(** The sparse matrix and the constraint set are only handed to deal.II. *)
Variable SparseMatrix : Type.
Variable ConstraintMatrix : Type.

(** Members of the object.  [trace] is not a member: it is the history of
    the run. *)
Record GWFLOW : Type := mk_GWFLOW {
  dof_handler : DoFHandler;
  locally_relevant_solution : Vector;
  system_matrix : SparseMatrix;
  system_rhs : Vector;
  constraints : ConstraintMatrix;
  top_boundary_ids : list Z;
  trace : list event
}.

(** The constructor: it stores its arguments; [matrix0] and [constraints0]
    stand for the default-constructed matrix and constraints. *)
Definition GWFLOW_init (dof_handler_in : DoFHandler)
    (locally_relevant_solution_in : Vector) (matrix0 : SparseMatrix)
    (constraints0 : ConstraintMatrix) (top_boundary_ids_in : list Z) : GWFLOW :=
  {| dof_handler := dof_handler_in;
     locally_relevant_solution := locally_relevant_solution_in;
     system_matrix := matrix0;
     system_rhs := [];
     constraints := constraints0;
     top_boundary_ids := top_boundary_ids_in;
     trace := [] |}.

(** *** deal.II and the other headers *)

(** The constraints built in [setup_system] (hanging nodes and Dirichlet
    values), and the matrix after [reinit] with the sparsity pattern. *)
Variable make_constraints : DoFHandler -> ConstraintMatrix.
Variable reinit_matrix : DoFHandler -> ConstraintMatrix -> SparseMatrix.

(** [wells.add_contributions(system_rhs, dof_handler, fe, constraints, HK,
    mpi_communicator)] of wells.h: the right-hand side after the call. *)
Variable wells_add_contributions :
  Vector -> DoFHandler -> ConstraintMatrix -> Vector.

(** Sizes of the element and of the quadrature rules. *)
Variable dofs_per_cell : nat.
Variable n_q_points : nat.
Variable n_face_q_points : nat.

(** [shape_grad(i,q) * K[q] * shape_grad(j,q) * JxW(q)] on a cell. *)
Variable stiffness_term : Cell -> nat -> nat -> nat -> double.

(** The factors of [Q_rch] on face [i_face] of a cell: the recharge value at
    a quadrature point, [recharge_weight<dim>(cell, i_face)] of
    helper_functions.h, the shape value and [JxW]. *)
Variable recharge_values : Cell -> nat -> nat -> double.
Variable recharge_weight : Cell -> nat -> double.
Variable shape_value : Cell -> nat -> nat -> nat -> double.
Variable face_JxW : Cell -> nat -> nat -> double.

(** [constraints.distribute_local_to_global(cell_matrix, cell_rhs,
    local_dof_indices, system_matrix, system_rhs)]. *)
Variable distribute_local_to_global :
  ConstraintMatrix -> FullMatrix -> Vector -> list nat ->
  SparseMatrix * Vector -> SparseMatrix * Vector.

(** [compress(VectorOperation::add)] on the matrix and on the vector. *)
Variable compress_matrix : SparseMatrix -> SparseMatrix.
Variable compress_vector : Vector -> Vector.

(** [SolverCG::solve(system_matrix, x, system_rhs, preconditioner)] with the
    AMG preconditioner initialised from the matrix. *)
Variable SolverCG_solve : SolverControl -> SparseMatrix -> Vector -> solver_outcome.

(** [constraints.distribute(x)]. *)
Variable constraints_distribute : ConstraintMatrix -> Vector -> Vector.

(** *** State updates *)

Definition log (e : list event) (g : GWFLOW) : GWFLOW :=
  {| dof_handler := dof_handler g;
     locally_relevant_solution := locally_relevant_solution g;
     system_matrix := system_matrix g; system_rhs := system_rhs g;
     constraints := constraints g; top_boundary_ids := top_boundary_ids g;
     trace := trace g ++ e |}.

Definition set_system (m : SparseMatrix) (rhs : Vector) (g : GWFLOW) : GWFLOW :=
  {| dof_handler := dof_handler g;
     locally_relevant_solution := locally_relevant_solution g;
     system_matrix := m; system_rhs := rhs;
     constraints := constraints g; top_boundary_ids := top_boundary_ids g;
     trace := trace g |}.

Definition set_solution (x : Vector) (g : GWFLOW) : GWFLOW :=
  {| dof_handler := dof_handler g;
     locally_relevant_solution := x;
     system_matrix := system_matrix g; system_rhs := system_rhs g;
     constraints := constraints g; top_boundary_ids := top_boundary_ids g;
     trace := trace g |}.

Definition set_constraints (c : ConstraintMatrix) (g : GWFLOW) : GWFLOW :=
  {| dof_handler := dof_handler g;
     locally_relevant_solution := locally_relevant_solution g;
     system_matrix := system_matrix g; system_rhs := system_rhs g;
     constraints := c; top_boundary_ids := top_boundary_ids g;
     trace := trace g |}.

(** Run [f], then [k] unless [f] threw. *)
Definition and_then (f k : GWFLOW -> completion * GWFLOW) (g : GWFLOW)
    : completion * GWFLOW :=
  match f g with
  | (Normal, g') => k g'
  | (Thrown e, g') => (Thrown e, g')
  end.

(** ** [setup_system] *)

Definition setup_system (g : GWFLOW) : completion * GWFLOW :=
  let dh := dof_handler g in
  let c := make_constraints dh in
  (Normal,
   log [ev_setup_system]
     (set_system (reinit_matrix dh c) (replicate (n_dofs dh) 0)
        (set_constraints c (set_solution (replicate (n_dofs dh) 0) g)))).

(** ** [assemble] *)

(** [v(i) += x]. *)
Definition add_to (i : nat) (x : double) (v : Vector) : Vector :=
  alter (fun y => y + x) i v.

(** [m(i,j) += x]. *)
Definition add_to_entry (i j : nat) (x : double) (m : FullMatrix) : FullMatrix :=
  alter (add_to j x) i m.

(** The three nested loops that fill [cell_matrix]. *)
Definition cell_stiffness (c : Cell) : FullMatrix :=
  foldl (fun m q =>
    foldl (fun m i =>
      foldl (fun m j => add_to_entry i j (stiffness_term c q i j) m)
        m (seq 0 dofs_per_cell))
      m (seq 0 dofs_per_cell))
    (replicate dofs_per_cell (replicate dofs_per_cell 0)) (seq 0 n_q_points).

(** The test on the boundary id of a boundary face. *)
Definition is_top_face (f : Face) : bool :=
  (boundary_id f =? 5)%nat && (dim =? 3)%nat ||
  (boundary_id f =? 3)%nat && (dim =? 2)%nat.

(** The loops over [q_point] and [i] that add [Q_rch] for one face. *)
Definition face_recharge (c : Cell) (i_face : nat) (cell_rhs : Vector) : Vector :=
  let weight := recharge_weight c i_face in
  foldl (fun rhs q =>
    foldl (fun rhs i =>
      let Q_rch := recharge_values c i_face q * weight *
                   shape_value c i_face i q * face_JxW c i_face q in
      add_to i Q_rch rhs)
      rhs (seq 0 dofs_per_cell))
    cell_rhs (seq 0 n_face_q_points).

(** The loop over [i_face], on the faces from [i_face] on: the local
    right-hand side and the faces that were integrated. *)
Fixpoint face_loop (c : Cell) (cell_no i_face : nat) (faces : list Face)
    (acc : Vector * list event) : Vector * list event :=
  match faces with
  | [] => acc
  | f :: faces' =>
      face_loop c cell_no (S i_face) faces'
        (if at_boundary f then
           if is_top_face f then
             (face_recharge c i_face (fst acc),
              snd acc ++ [ev_face_recharge cell_no i_face])
           else acc
         else acc)
  end.

(** The body of the loop over the active cells. *)
Definition assemble_cell (cell_no : nat) (c : Cell) (g : GWFLOW) : GWFLOW :=
  if is_locally_owned c then
    let cell_matrix := cell_stiffness c in
    let '(cell_rhs, evs) :=
      face_loop c cell_no 0 (cell_faces c) (replicate dofs_per_cell 0, []) in
    let '(m, rhs) :=
      distribute_local_to_global (constraints g) cell_matrix cell_rhs
        (get_dof_indices c) (system_matrix g, system_rhs g) in
    log evs (set_system m rhs g)
  else g.

Fixpoint cell_loop (cell_no : nat) (cells : list Cell) (g : GWFLOW) : GWFLOW :=
  match cells with
  | [] => g
  | c :: cells' => cell_loop (S cell_no) cells' (assemble_cell cell_no c g)
  end.

Definition assemble (g : GWFLOW) : completion * GWFLOW :=
  let g1 := cell_loop 0 (active_cells (dof_handler g)) (log [ev_assemble] g) in
  let g2 := log [ev_compress_matrix]
              (set_system (compress_matrix (system_matrix g1)) (system_rhs g1) g1) in
  (Normal,
   log [ev_compress_rhs]
     (set_system (system_matrix g2) (compress_vector (system_rhs g2)) g2)).

(** ** [solve] *)

(** [solve()].  The line "Solving system...", written before the control
    is built, is not recorded in the trace; the line "Solved in N
    iterations" is ([ev_solved_in]).  The exception of a solver that does
    not converge is not caught: it is the completion [Thrown]. *)
Definition solve (g : GWFLOW) : completion * GWFLOW :=
  let solver_control :=
    {| max_steps := n_dofs (dof_handler g); tolerance := 1e-8 |} in
  let g1 := log [ev_solver_solve solver_control] g in
  match SolverCG_solve solver_control (system_matrix g1) (system_rhs g1) with
  | Converged last_step x =>
      (Normal,
       set_solution (constraints_distribute (constraints g1) x)
         (log [ev_solved_in last_step; ev_constraints_distribute] g1))
  | NotConverged last_step last_residual =>
      (Thrown (NoConvergence last_step last_residual), g1)
  end.

(** ** [output] and [Simulate] *)

Definition output (iter : nat) (g : GWFLOW) : completion * GWFLOW :=
  (Normal, log [ev_output iter] g).

Definition wells_step (g : GWFLOW) : completion * GWFLOW :=
  (Normal,
   log [ev_wells_add_contributions]
     (set_system (system_matrix g)
        (wells_add_contributions (system_rhs g) (dof_handler g) (constraints g)) g)).

Definition Simulate (iter : nat) (g : GWFLOW) : completion * GWFLOW :=
  and_then setup_system
    (and_then wells_step
      (and_then assemble
        (and_then solve (output iter)))) g.

(** *** Notions used to state the properties of the driver *)

Definition set_top_boundary_ids (ids : list Z) (g : GWFLOW) : GWFLOW :=
  {| dof_handler := dof_handler g;
     locally_relevant_solution := locally_relevant_solution g;
     system_matrix := system_matrix g; system_rhs := system_rhs g;
     constraints := constraints g; top_boundary_ids := ids;
     trace := trace g |}.

(** The boundary faces that pass the test of [assemble], among [faces]
    numbered from [i_face] on. *)
Fixpoint top_faces_from (i_face : nat) (faces : list Face) : list nat :=
  match faces with
  | [] => []
  | f :: faces' =>
      (if at_boundary f && is_top_face f then [i_face] else [])
      ++ top_faces_from (S i_face) faces'
  end.

(** The face integrals of the cells numbered from [cell_no] on. *)
Fixpoint recharge_events (cell_no : nat) (cells : list Cell) : list event :=
  match cells with
  | [] => []
  | c :: cells' =>
      (if is_locally_owned c
       then map (ev_face_recharge cell_no) (top_faces_from 0 (cell_faces c))
       else [])
      ++ recharge_events (S cell_no) cells'
  end.

(** The control that [solve] builds. *)
Definition solver_control_of (g : GWFLOW) : SolverControl :=
  {| max_steps := n_dofs (dof_handler g); tolerance := 1e-8 |}.

(** The sum of [term 0], ..., [term (n-1)], added in this order to [start]. *)
Definition sum_from (start : double) (term : nat -> double) (n : nat) : double :=
  foldl (fun acc q => acc + term q) start (seq 0 n).

(** [Q_rch] at a quadrature point of a face, for shape function [i]. *)
Definition Q_rch (c : Cell) (i_face q i : nat) : double :=
  recharge_values c i_face q * recharge_weight c i_face *
  shape_value c i_face i q * face_JxW c i_face q.

(** The local right-hand side of a cell: the recharge of its top faces, added
    to zeros. *)
Definition cell_recharge (c : Cell) : Vector :=
  foldl (fun rhs i_face => face_recharge c i_face rhs)
    (replicate dofs_per_cell 0) (top_faces_from 0 (cell_faces c)).

(** What the loop over the cells hands to the constraints, cell after cell,
    for the locally owned cells among [cells]. *)
Definition distribute_cells (cs : ConstraintMatrix) (cells : list Cell)
    (sys : SparseMatrix * Vector) : SparseMatrix * Vector :=
  foldl (fun sys c =>
           distribute_local_to_global cs (cell_stiffness c) (cell_recharge c)
             (get_dof_indices c) sys)
    sys (List.filter is_locally_owned cells).

(** The recharge of shape function [i] over the faces [faces], face after
    face. *)
Definition recharge_sum (c : Cell) (i : nat) (faces : list nat) : double :=
  foldl (fun acc i_face => sum_from acc (fun q => Q_rch c i_face q i) n_face_q_points)
    0 faces.

End Flow.

Arguments dof_handler {SparseMatrix ConstraintMatrix} g.
Arguments locally_relevant_solution {SparseMatrix ConstraintMatrix} g.
Arguments system_matrix {SparseMatrix ConstraintMatrix} g.
Arguments system_rhs {SparseMatrix ConstraintMatrix} g.
Arguments constraints {SparseMatrix ConstraintMatrix} g.
Arguments top_boundary_ids {SparseMatrix ConstraintMatrix} g.
Arguments trace {SparseMatrix ConstraintMatrix} g.

End GWFLOW.

(** * Concrete inputs *)

Module Examples.

Import Streams.

(** A square root good enough to run the examples: the identity. *)
Definition sqrt_id (x : double) : double := x.

(** Two lines [y = m1 x + b1] and [y = m2 x + b2] meet unless they have the
    same slope. *)
Definition meet_lines (b1 m1 b2 m2 : double) : option (double * double) :=
  if Qeq_bool m1 m2 then None
  else let x := (b2 - b1) / (m1 - m2) in Some (x, m1 * x + b1).

Definition zero_locals : locals := mk_locals 0 0 0 0.

(** One horizontal segment from (0,0) to (10,0), rate 5, half-width 1. *)
Definition horizontal_file : stream_file :=
  mk_file (Some 1%nat) [[0; 0; 10; 0; 5; 1]].

(** The catalog that [read_streams] builds from [horizontal_file]. *)
Definition horizontal_catalog : Streams :=
  {| st_A := [mkPoint2 0 0]; st_B := [mkPoint2 10 0];
     st_Q_rate := [5]; st_length := [sqrt_id ((0 - 10) * (0 - 10) + (0 - 0) * (0 - 0))];
     st_width := [1];
     stream_triangles :=
       [mk_Triangle (mkPoint3 0 (0 - 1) 0) (mkPoint3 0 (0 + 1) 0) (mkPoint3 10 (0 - 1) 0);
        mk_Triangle (mkPoint3 0 (0 + 1) 0) (mkPoint3 10 (0 + 1) 0) (mkPoint3 10 (0 - 1) 0)];
     stream_ids := [0%nat; 0%nat];
     stream_tree :=
       [mk_Triangle (mkPoint3 0 (0 - 1) 0) (mkPoint3 0 (0 + 1) 0) (mkPoint3 10 (0 - 1) 0);
        mk_Triangle (mkPoint3 0 (0 + 1) 0) (mkPoint3 10 (0 + 1) 0) (mkPoint3 10 (0 - 1) 0)];
     N_seg := 1;
     river_outline := [];
     st_Xmax := [10]; st_Xmin := [0]; st_Ymin := [0 - 1]; st_Ymax := [0 + 1];
     st_Xoutline := [[0; 0; 10; 10]];
     st_Youtline := [[0 - 1; 0 + 1; 0 - 1; 0 + 1]];
     tria := unit_cell; river_rect := unit_cell |}.

(** One record whose end points are less than 0.1 apart in both
    coordinates. *)
Definition short_file : stream_file :=
  mk_file (Some 1%nat) [[0; 0; 0.05; 0.05; 5; 1]].

(** Two horizontal segments, along y = 0 with rate 5 and along y = 5 with
    rate 7. *)
Definition two_file : stream_file :=
  mk_file (Some 2%nat) [[0; 0; 10; 0; 5; 1]; [0; 5; 10; 5; 7; 1]].

Definition two_catalog : Streams :=
  Eval vm_compute in
    match read_streams sqrt_id meet_lines zero_locals (Some two_file) Streams_init with
    | Ok (_, s) => s
    | OutOfRange => Streams_init
    end.

(** A cell footprint, the square [2,3] x [-0.5,0.5]. *)
Definition footprint_x : list double := [2; 3; 3; 2].
Definition footprint_y : list double := [-0.5; -0.5; 0.5; 0.5].

(** A tree query that reports the first triangle of segment 0 and both
    triangles of segment 1. *)
Definition report_both (tree triangles : list ine_Triangle) (xp yp : list double)
    : bool * list nat := (true, [0; 2; 3]%nat).

(** The same report as [report_both], in another order and with a triangle
    named twice. *)
Definition report_both_shuffled (tree triangles : list ine_Triangle)
    (xp yp : list double) : bool * list nat := (true, [3; 0; 2; 0]%nat).

(** A clip routine that throws on outlines that reach below y = 0 and
    otherwise reports the area 1 around (2.5, 5). *)
Definition clip_or_throw (xp yp xo yo : list double) : clip_result :=
  match yo with
  | y0 :: _ => if dlt y0 0 then ClipThrows else Clipped 1 2.5 5
  | [] => ClipThrows
  end.

(** A cell footprint that is a square standing on a corner, with the
    vertices (9.75, 1.75), (10.75, 0.75), (11.75, 1.75), (10.75, 2.75).
    Its bounding volume [9.75, 11.75] x [0.75, 2.75] overlaps that of the
    outline [0, 10] x [-1, 1] of [horizontal_catalog]; the square itself
    lies beyond the line x + y = 11.25, the outline before it. *)
Definition tilted_x : list double := [9.75; 10.75; 11.75; 10.75].
Definition tilted_y : list double := [1.75; 0.75; 1.75; 2.75].

(** The first polygon lies beyond the line x + y = c and the second before
    it: they have no point in common. *)
Definition separated (c : double) (x1 y1 x2 y2 : list double) : bool :=
  forallb (fun v => dlt c (fst v + snd v)) (zip x1 y1) &&
  forallb (fun v => dlt (fst v + snd v) c) (zip x2 y2).

(** The exact intersection with the outline of [horizontal_catalog], for
    the two footprints of these examples: [tilted_x], [tilted_y], which the
    line x + y = 11.25 separates from the outline, and [footprint_x],
    [footprint_y], the square [2,3] x [-0.5,0.5] that lies in the outline,
    so that the intersection is the square, of area 1 around (2.5, 0). *)
Definition corner_intersection (x1 y1 x2 y2 : list double) : intersection :=
  if separated 11.25 x1 y1 x2 y2 then Empty else Region 1 2.5 0.

(** A clip routine that fails on no input. *)
Definition never_fails (x1 y1 x2 y2 : list double) : bool := false.

(** A file that announces two segments and holds one. *)
Definition truncated_file : stream_file :=
  mk_file (Some 2%nat) [[0; 0; 10; 0; 5; 1]].

(** One vertical segment from (3,0) to (3,8), rate 2, half-width 1/2. *)
Definition vertical_file : stream_file :=
  mk_file (Some 1%nat) [[3; 0; 3; 8; 2; 0.5]].

(** The object after [horizontal_file] has been read a second time. *)
Definition reloaded_catalog : Streams :=
  Eval vm_compute in
    match read_streams sqrt_id meet_lines zero_locals (Some horizontal_file)
            horizontal_catalog with
    | Ok (_, s) => s
    | OutOfRange => Streams_init
    end.

(** The four vertices of a top face, at the height 30. *)
Definition top_face_at_30 : list Point3 :=
  [mkPoint3 2 (-0.5) 30; mkPoint3 3 (-0.5) 30; mkPoint3 2 0.5 30; mkPoint3 3 0.5 30].

(** *** A run of the flow driver in 3-D *)

(** One locally owned cell with two boundary faces, of boundary ids 5 and 7,
    and two DoFs. *)
Definition face5 : GWFLOW.Face := GWFLOW.mk_Face true 5.
Definition face7 : GWFLOW.Face := GWFLOW.mk_Face true 7.
Definition one_cell : GWFLOW.Cell := GWFLOW.mk_Cell true [face5; face7] [0; 1]%nat.
Definition one_cell_dofs : GWFLOW.DoFHandler := GWFLOW.mk_DoFHandler 2 [one_cell].

(** The caller names 7 as the top boundary. *)
Definition flow7 : GWFLOW.GWFLOW unit unit :=
  GWFLOW.GWFLOW_init unit unit one_cell_dofs [] tt tt [7%Z].

Definition unit_term (c : GWFLOW.Cell) (q i j : nat) : double := 1.
Definition unit_face (c : GWFLOW.Cell) (i_face q : nat) : double := 1.
Definition unit_weight (c : GWFLOW.Cell) (i_face : nat) : double := 1.

(** Local contributions are added at their global indices. *)
Definition add_local (cs : unit) (cell_matrix : GWFLOW.FullMatrix)
    (cell_rhs : GWFLOW.Vector) (idx : list nat) (sys : unit * GWFLOW.Vector)
    : unit * GWFLOW.Vector :=
  (tt, foldl (fun rhs ix => GWFLOW.add_to (fst ix) (snd ix) rhs) (snd sys)
         (zip idx cell_rhs)).

(** A solver that converges in one step, and one that gives up after three
    steps with the residual 1. *)
Definition converging (ctl : GWFLOW.SolverControl) (m : unit) (rhs : GWFLOW.Vector)
    : GWFLOW.solver_outcome := GWFLOW.Converged 1 rhs.
Definition stalling (ctl : GWFLOW.SolverControl) (m : unit) (rhs : GWFLOW.Vector)
    : GWFLOW.solver_outcome := GWFLOW.NotConverged 3 1.

(** [Simulate] and its parts on the example, for a given solver. *)
Definition run_assemble :=
  GWFLOW.assemble 3 unit unit 2 1 1 unit_term unit_face unit_weight unit_term unit_face
    add_local (fun m => m) (fun v => v).
Definition run_solve solver :=
  GWFLOW.solve unit unit solver (fun cs x => x).
Definition run_Simulate solver :=
  GWFLOW.Simulate 3 unit unit (fun dh => tt) (fun dh cs => tt) (fun rhs dh cs => rhs)
    2 1 1 unit_term unit_face unit_weight unit_term unit_face
    add_local (fun m => m) (fun v => v) solver (fun cs x => x).

End Examples.
(** * Properties of the stream catalog *)

Lemma dlt_spec (x y : double) : dlt x y = true <-> x < y.
Proof. unfold dlt, Qlt. apply Z.ltb_lt. Qed.

Lemma dlt_false (x y : double) : dlt x y = false <-> y <= x.
Proof. unfold dlt, Qle. rewrite Z.ltb_ge. reflexivity. Qed.

Lemma dle_spec (x y : double) : dle x y = true <-> x <= y.
Proof. apply Qle_bool_iff. Qed.

Lemma at_Ok {T} (v : list T) (i : nat) (x : T) : at_ v i = Ok x <-> v !! i = Some x.
Proof. unfold at_. destruct (v !! i); split; intros H; inversion H; reflexivity. Qed.

Lemma bind_Ok {U T} (m : outcome U) (f : U -> outcome T) (y : T) :
  (x ← m; f x) = Ok y -> exists x, m = Ok x /\ f x = Ok y.
Proof. destruct m as [x|]; simpl; intros H; [eauto | discriminate]. Qed.

Ltac inv_bind H :=
  let x := fresh "x" in
  let Hx := fresh "Hx" in
  apply bind_Ok in H; destruct H as (x & Hx & H).

Import Streams.

Tactic Notation "bind_inv" hyp(H) "as" ident(x) ident(Hx) :=
  apply bind_Ok in H; destruct H as (x & Hx & H).

Section CatalogFacts.

Variable sqrt : double -> double.
Variable line_line_intersection :
  double -> double -> double -> double -> option (double * double).

Local Abbreviation create_river_outline :=
  (Streams.create_river_outline sqrt line_line_intersection).
Local Abbreviation read_segment := (Streams.read_segment sqrt line_line_intersection).
Local Abbreviation read_segments := (Streams.read_segments sqrt line_line_intersection).
Local Abbreviation read_streams := (Streams.read_streams sqrt line_line_intersection).
Local Abbreviation distance := (Streams.distance sqrt).
Local Abbreviation segment_measured :=
  (Streams.segment_measured sqrt line_line_intersection).
Local Abbreviation well_formed_record :=
  (Streams.well_formed_record sqrt line_line_intersection).

Lemma bbox_step_spec (bb : bbox) (x y : double) :
  let bb' := bbox_step bb x y in
  (bb_Xmin bb' <= bb_Xmin bb /\ bb_Xmax bb <= bb_Xmax bb' /\
   bb_Ymin bb' <= bb_Ymin bb /\ bb_Ymax bb <= bb_Ymax bb') /\
  (bb_Xmin bb' <= x /\ x <= bb_Xmax bb' /\ bb_Ymin bb' <= y /\ y <= bb_Ymax bb').
Proof.
  simpl.
  destruct (dlt x (bb_Xmin bb)) eqn:E1, (dlt (bb_Xmax bb) x) eqn:E2,
           (dlt y (bb_Ymin bb)) eqn:E3, (dlt (bb_Ymax bb) y) eqn:E4;
    rewrite ?dlt_spec, ?dlt_false in *;
    repeat split; auto using Qle_refl, Qlt_le_weak.
Qed.

Lemma bbox_loop_spec (xs : list double) : forall j yy bb bb',
  bbox_loop xs j yy bb = Ok bb' ->
  (bb_Xmin bb' <= bb_Xmin bb /\ bb_Xmax bb <= bb_Xmax bb' /\
   bb_Ymin bb' <= bb_Ymin bb /\ bb_Ymax bb <= bb_Ymax bb') /\
  forall k (x y : double), xs !! k = Some x -> yy !! (j + k)%nat = Some y ->
    bb_Xmin bb' <= x /\ x <= bb_Xmax bb' /\ bb_Ymin bb' <= y /\ y <= bb_Ymax bb'.
Proof.
  induction xs as [|x0 xs IH]; intros j yy bb bb' H.
  - inversion H; subst. split; [auto using Qle_refl|]. intros k x y Hk. discriminate.
  - cbn [bbox_loop] in H. inv_bind H. apply at_Ok in Hx.
    destruct (IH _ _ _ _ H) as [(M1 & M2 & M3 & M4) In'].
    destruct (bbox_step_spec bb x0 x) as [(S1 & S2 & S3 & S4) (C1 & C2 & C3 & C4)].
    split.
    + repeat split; eapply Qle_trans; eauto.
    + intros [|k] x1 y1 Hk Hy.
      * simpl in Hk. rewrite Nat.add_0_r in Hy.
        pose proof (eq_trans (eq_sym Hx) Hy) as E. simplify_eq.
        repeat split; [exact (Qle_trans _ _ _ M1 C1) | exact (Qle_trans _ _ _ C2 M2)
                      | exact (Qle_trans _ _ _ M3 C3) | exact (Qle_trans _ _ _ C4 M4)].
      * simpl in Hk. apply (In' k); [assumption|].
        replace (S j + k)%nat with (j + S k)%nat by lia. assumption.
Qed.

Lemma bbox_loop_ok (xs : list double) : forall j yy bb,
  (j + length xs <= length yy)%nat -> is_ok (bbox_loop xs j yy bb) = true.
Proof.
  induction xs as [|x0 xs IH]; intros j yy bb Hlen; [reflexivity|].
  cbn [bbox_loop]. simpl in Hlen.
  destruct (lookup_lt_is_Some_2 yy j ltac:(lia)) as [y Hy].
  unfold at_. rewrite Hy. simpl. apply IH. lia.
Qed.

Lemma push_intersection_length r o :
  length (fst o) = length (snd o) ->
  length (fst (push_intersection r o)) = length (snd (push_intersection r o)) /\
  (length (fst (push_intersection r o)) <= S (length (fst o)))%nat.
Proof.
  intros H. destruct r as [[x y]|]; simpl; unfold push_back;
    rewrite ?length_app; simpl; lia.
Qed.

(** The two coordinate vectors of an outline have the same size, at most 4. *)
Lemma create_river_outline_length (a b : Point2) (w : double) :
  length (fst (create_river_outline a b w)) = length (snd (create_river_outline a b w)) /\
  (length (fst (create_river_outline a b w)) <= 4)%nat.
Proof.
  unfold Streams.create_river_outline.
  repeat match goal with |- context [if ?c then _ else _] => destruct c end;
    simpl fst; simpl snd; simpl length; try lia.
  set (o0 := (@nil double, @nil double)).
  assert (H0 : length (fst o0) = length (snd o0)) by reflexivity.
  assert (L0 : (length (fst o0) <= 0)%nat) by (simpl; lia).
  repeat match goal with
  | |- context [push_intersection ?r ?o] =>
      lazymatch goal with
      | _ : length (fst (push_intersection r o)) = _ /\ _ |- _ => fail
      | _ => idtac
      end;
      let Hn := fresh "P" in
      assert (Hn : length (fst o) = length (snd o)) by (first [exact H0 | tauto]);
      pose proof (push_intersection_length r o Hn); clear Hn
  end.
  lia.
Qed.

(** The loop over [j] completes on every outline, of four vertices or fewer,
    and leaves a box that holds each vertex. *)
Lemma create_river_outline_bounding_box (a b : Point2) (w : double) :
  exists bb,
    bbox_loop (fst (create_river_outline a b w)) 0 (snd (create_river_outline a b w))
      bbox_start = Ok bb /\
    forall j (x y : double),
      fst (create_river_outline a b w) !! j = Some x ->
      snd (create_river_outline a b w) !! j = Some y ->
      bb_Xmin bb <= x /\ x <= bb_Xmax bb /\ bb_Ymin bb <= y /\ y <= bb_Ymax bb.
Proof.
  destruct (create_river_outline_length a b w) as [Hl _].
  pose proof (bbox_loop_ok (fst (create_river_outline a b w)) 0
                (snd (create_river_outline a b w)) bbox_start ltac:(lia)) as Hok.
  destruct (bbox_loop _ 0 _ bbox_start) as [bb|] eqn:Hbb; [|discriminate].
  exists bb. split; [reflexivity|].
  intros j x y Hx Hy. exact (proj2 (bbox_loop_spec _ _ _ _ _ Hbb) j x y Hx Hy).
Qed.

Lemma at_length {T} (v : list T) (i : nat) (x : T) : at_ v i = Ok x -> (i < length v)%nat.
Proof. intros H. apply at_Ok in H. eapply lookup_lt_Some; eauto. Qed.

(** What a completed pass of the loop over [i] has stored. *)
Lemma read_segment_Ok i buffer v s v' s' :
  read_segment i buffer v s = Ok (v', s') ->
  exists a b q w xx yy bb,
    create_river_outline a b w = (xx, yy) /\
    bbox_loop xx 0 yy bbox_start = Ok bb /\
    length xx = 4%nat /\ length yy = 4%nat /\
    st_A s' = <[i:=a]> (st_A s) /\ st_B s' = <[i:=b]> (st_B s) /\
    st_Q_rate s' = <[i:=q]> (st_Q_rate s) /\
    st_length s' = <[i:=distance a b]> (st_length s) /\
    st_width s' = <[i:=w]> (st_width s) /\
    st_Xoutline s' = <[i:=xx]> (st_Xoutline s) /\
    st_Youtline s' = <[i:=yy]> (st_Youtline s) /\
    st_Xmin s' = <[i:=bb_Xmin bb]> (st_Xmin s) /\
    st_Xmax s' = <[i:=bb_Xmax bb]> (st_Xmax s) /\
    st_Ymin s' = <[i:=bb_Ymin bb]> (st_Ymin s) /\
    st_Ymax s' = <[i:=bb_Ymax bb]> (st_Ymax s) /\
    stream_ids s' = stream_ids s ++ [i; i] /\
    length (stream_triangles s') = S (S (length (stream_triangles s))) /\
    N_seg s' = N_seg s /\ river_outline s' = river_outline s /\
    stream_tree s' = stream_tree s /\ river_rect s' = river_rect s.
Proof.
  unfold Streams.read_segment. intros H.
  repeat match type of H with
  | context [extract ?x ?l] => destruct (extract x l) as [? ?]
  end.
  match type of H with
  | context [Streams.create_river_outline ?f ?g ?a ?b ?w] =>
      pose proof (create_river_outline_length a b w) as [Hl L4];
      destruct (Streams.create_river_outline f g a b w) as [xx yy] eqn:Ho
  end.
  simpl in Hl, L4.
  inv_bind H. rename x into bb, Hx into Hbb.
  do 6 inv_bind H. inv_bind H. rename Hx5 into X3. inv_bind H.
  apply at_length in X3.
  inversion H; subst; clear H. simpl.
  do 7 eexists. split; [exact Ho|]. split; [exact Hbb|].
  unfold push_back. rewrite <- !app_assoc, !length_app. simpl.
  repeat split; try reflexivity; lia.
Qed.

Ltac use_read_segment H :=
  apply read_segment_Ok in H;
  destruct H as (a & b & q & w & xx & yy & bb & Ho & Hbb & Lx & Ly &
                 EA & EB & EQ & EL & EW & EXo & EYo & EXmin & EXmax & EYmin & EYmax &
                 Eids & Etri & EN & Eriver & Etree & Erect).

Lemma read_segment_sized n i buffer v s v' s' :
  read_segment i buffer v s = Ok (v', s') -> sized n s -> sized n s'.
Proof.
  intros H. use_read_segment H. unfold sized.
  rewrite EA, EB, EQ, EL, EW, EXo, EYo, EXmin, EXmax, EYmin, EYmax, !length_insert.
  tauto.
Qed.

Lemma read_segment_measured_other i k buffer v s v' s' :
  read_segment i buffer v s = Ok (v', s') -> k <> i ->
  segment_measured s k -> segment_measured s' k.
Proof.
  intros H Hk. use_read_segment H. unfold Streams.segment_measured.
  rewrite EA, EB, EL, EW, EXo, EYo, EXmin, EXmax, EYmin, EYmax.
  rewrite !list_lookup_insert_ne by congruence. trivial.
Qed.

Lemma read_segment_measured_self n i buffer v s v' s' :
  read_segment i buffer v s = Ok (v', s') -> sized n s -> (i < n)%nat ->
  segment_measured s' i.
Proof.
  intros H (LA & LB & LQ & LL & LW & LXo & LYo & LXmin & LXmax & LYmin & LYmax) Hi.
  use_read_segment H. unfold Streams.segment_measured.
  rewrite EA, EB, EL, EW, EXo, EYo, EXmin, EXmax, EYmin, EYmax.
  exists a, b, w, xx, yy, (bb_Xmin bb), (bb_Xmax bb), (bb_Ymin bb), (bb_Ymax bb).
  repeat match goal with |- _ /\ _ => split end;
    try (apply list_lookup_insert_eq; lia); try lia; [exact Ho|].
  intros j x y Hx Hy. exact (proj2 (bbox_loop_spec _ _ _ _ _ Hbb) j x y Hx Hy).
Qed.

(** The invariant of the loop over [i]: the segments already read are
    measured, and stay so. *)
Lemma read_segments_measured n : forall i lines v s s',
  read_segments n i lines v s = Ok s' ->
  sized (i + n) s ->
  (forall k, (k < i)%nat -> segment_measured s k) ->
  N_seg s' = N_seg s /\ forall k, (k < i + n)%nat -> segment_measured s' k.
Proof.
  induction n as [|n IH]; intros i lines v s s' H Hs Hdone.
  - inversion H; subst. split; [reflexivity|]. intros k Hk. apply Hdone. lia.
  - cbn [Streams.read_segments] in H. destruct (getline lines) as [buffer rest].
    inv_bind H. destruct x as [v1 s1]. simpl in H.
    replace (i + S n)%nat with (S i + n)%nat in * by lia.
    apply IH in H.
    + destruct H as [EN M]. split; [|exact M].
      rewrite EN. apply read_segment_Ok in Hx.
      destruct Hx as (?&?&?&?&?&?&?&Hx). tauto.
    + eapply read_segment_sized; eauto.
    + intros k Hk. destruct (decide (k = i)) as [->|Hne].
      * eapply read_segment_measured_self; eauto. lia.
      * eapply read_segment_measured_other; eauto. apply Hdone. lia.
Qed.

Lemma resize_all_sized n s : sized n (resize_all n s).
Proof. unfold sized, resize_all; simpl. rewrite !length_resize. tauto. Qed.

(** C9. Every record that [read_streams] has loaded is stored with the
    Euclidean distance of its end points [A] and [B] as its length, and with
    a bounding box [Xmin, Xmax] x [Ymin, Ymax] that holds all the vertices
    (four, or fewer) of its computed outline. *)
Theorem read_streams_length_and_bounding_box uninit f s s' :
  read_streams uninit (Some f) s = Ok (true, s') ->
  forall i, (i < N_seg s')%nat -> segment_measured s' i.
Proof.
  unfold Streams.read_streams. intros H. inv_bind H. inversion H; subst; clear H.
  apply read_segments_measured in Hx.
  - destruct Hx as [EN M]. simpl in EN. intros i Hi. simpl in Hi. rewrite EN in Hi.
    destruct (M i Hi) as (a & b & w & xx & yy & xmin & xmax & ymin & ymax & P).
    exists a, b, w, xx, yy, xmin, xmax, ymin, ymax. exact P.
  - apply resize_all_sized.
  - intros k Hk. lia.
Qed.

Lemma at_lookup {T} (v : list T) (i : nat) (x : T) : v !! i = Some x -> at_ v i = Ok x.
Proof. apply at_Ok. Qed.

(** A well-formed record is read without leaving any vector. *)
Lemma read_segment_well_formed i line v s :
  well_formed_record line = true ->
  exists v' s', read_segment i line v s = Ok (v', s').
Proof.
  destruct line as [|ax [|ay [|bx [|by_ [|q [|w [|? ?]]]]]]]; try discriminate.
  unfold Streams.well_formed_record, Streams.read_segment. cbn [extract].
  intros H. apply Nat.eqb_eq in H.
  pose proof (create_river_outline_length (mkPoint2 ax ay) (mkPoint2 bx by_) w) as [Hl _].
  destruct (Streams.create_river_outline _ _ _ _ _) as [xx yy]. simpl in H, Hl.
  rewrite H in Hl.
  pose proof (bbox_loop_ok xx 0 yy bbox_start ltac:(lia)) as Hbb.
  destruct (bbox_loop xx 0 yy bbox_start) as [bb|]; [|discriminate].
  destruct xx as [|x0 [|x1 [|x2 [|x3 [|? ?]]]]]; try discriminate.
  destruct yy as [|y0 [|y1 [|y2 [|y3 [|? ?]]]]]; try discriminate.
  simpl. eauto.
Qed.

Lemma tags_length n : forall i, length (tags i n) = (2 * n)%nat.
Proof.
  induction n as [|n IH]; intros i; [reflexivity|].
  change (tags i (S n)) with (i :: i :: tags (S i) n). simpl. rewrite (IH (S i)). lia.
Qed.

Lemma tags_lookup n : forall i j, (j < n)%nat ->
  tags i n !! (2 * j)%nat = Some (i + j)%nat /\
  tags i n !! (2 * j + 1)%nat = Some (i + j)%nat.
Proof.
  induction n as [|n IH]; intros i j Hj; [lia|].
  destruct j as [|j].
  - simpl. rewrite Nat.add_0_r. split; reflexivity.
  - replace (2 * S j)%nat with (S (S (2 * j))) by lia.
    replace (S (S (2 * j)) + 1)%nat with (S (S (2 * j + 1))) by lia.
    change (tags i (S n)) with (i :: i :: tags (S i) n). cbn [lookup list_lookup].
    destruct (IH (S i) j ltac:(lia)) as [E1 E2].
    replace (i + S j)%nat with (S i + j)%nat by lia. split; assumption.
Qed.

(** The loop over [i] on well-formed records: it completes, and appends the
    id of every record twice. *)
Lemma read_segments_well_formed lines : forall i v s,
  Forall (fun line => well_formed_record line = true) lines ->
  exists s', read_segments (length lines) i lines v s = Ok s' /\
    N_seg s' = N_seg s /\
    stream_ids s' = stream_ids s ++ tags i (length lines) /\
    length (stream_triangles s') = (length (stream_triangles s) + 2 * length lines)%nat.
Proof.
  induction lines as [|line lines IH]; intros i v s Hwf.
  - exists s. simpl. rewrite app_nil_r. repeat split; lia.
  - inversion Hwf as [|? ? Hline Hrest]; subst.
    destruct (read_segment_well_formed i line v s Hline) as (v1 & s1 & H1).
    destruct (IH (S i) v1 s1 Hrest) as (s' & H' & EN' & Eids' & Etri').
    exists s'. cbn [length Streams.read_segments getline]. rewrite H1. simpl.
    split; [exact H'|]. use_read_segment H1.
    rewrite EN', Eids', Etri', EN, Eids, Etri, <- app_assoc. simpl.
    repeat split; lia.
Qed.

(** C10. On a file of [n] well-formed, non-degenerate records
    [read_streams] succeeds and appends: [stream_triangles] and
    [stream_ids] have [2 n] entries more than before the call, and the new
    entries [2 i] and [2 i + 1] of [stream_ids], counted from its old size,
    are [i].  On an object that held no triangle and no id before the call,
    a freshly constructed one in particular, the two vectors have exactly
    [2 n] entries and the entries [2 i] and [2 i + 1] of [stream_ids] are
    [i]. *)
Theorem read_streams_triangle_catalog uninit f n s :
  file_header f = Some n -> length (file_lines f) = n ->
  Forall (fun line => well_formed_record line = true) (file_lines f) ->
  exists s', read_streams uninit (Some f) s = Ok (true, s') /\
    N_seg s' = n /\
    length (stream_triangles s') = (length (stream_triangles s) + 2 * n)%nat /\
    length (stream_ids s') = (length (stream_ids s) + 2 * n)%nat /\
    (forall i, (i < n)%nat ->
       stream_ids s' !! (length (stream_ids s) + 2 * i)%nat = Some i /\
       stream_ids s' !! (length (stream_ids s) + 2 * i + 1)%nat = Some i) /\
    (stream_triangles s = [] -> stream_ids s = [] ->
       length (stream_triangles s') = (2 * n)%nat /\
       length (stream_ids s') = (2 * n)%nat /\
       forall i, (i < n)%nat ->
         stream_ids s' !! (2 * i)%nat = Some i /\
         stream_ids s' !! (2 * i + 1)%nat = Some i).
Proof.
  intros Hh Hn Hwf. unfold Streams.read_streams. rewrite Hh.
  destruct (read_segments_well_formed (file_lines f) 0 uninit
              (resize_all n s) Hwf) as (s' & H & EN & Eids & Etri).
  rewrite Hn in H, Eids, Etri. rewrite H.
  change (N_seg (resize_all n s)) with n in EN.
  change (stream_ids (resize_all n s)) with (stream_ids s) in Eids.
  change (stream_triangles (resize_all n s)) with (stream_triangles s) in Etri.
  exists (tree_insert s'). split; [reflexivity|].
  change (N_seg (tree_insert s')) with (N_seg s').
  change (stream_ids (tree_insert s')) with (stream_ids s').
  change (stream_triangles (tree_insert s')) with (stream_triangles s').
  assert (Hnew : forall i, (i < n)%nat ->
            stream_ids s' !! (length (stream_ids s) + 2 * i)%nat = Some i /\
            stream_ids s' !! (length (stream_ids s) + 2 * i + 1)%nat = Some i).
  { intros i Hi. rewrite Eids. destruct (tags_lookup n 0 i Hi) as [E1 E2].
    split.
    - rewrite lookup_app_r by lia.
      replace (length (stream_ids s) + 2 * i - length (stream_ids s))%nat
        with (2 * i)%nat by lia. exact E1.
    - rewrite lookup_app_r by lia.
      replace (length (stream_ids s) + 2 * i + 1 - length (stream_ids s))%nat
        with (2 * i + 1)%nat by lia. exact E2. }
  split; [exact EN|]. split; [exact Etri|].
  split; [rewrite Eids, length_app, tags_length; reflexivity|].
  split; [exact Hnew|].
  intros Et Ei.
  split; [rewrite Etri, Et; reflexivity|].
  split; [rewrite Eids, length_app, tags_length, Ei; reflexivity|].
  intros i Hi. specialize (Hnew i Hi). rewrite Ei in Hnew. exact Hnew.
Qed.

(** A completed [read_streams] has only stored outlines of four vertices. *)
Lemma read_segment_needs_four_vertices i ax ay bx by_ q w rest v s :
  (length (fst (create_river_outline (mkPoint2 ax ay) (mkPoint2 bx by_) w)) < 4)%nat ->
  read_segment i (ax :: ay :: bx :: by_ :: q :: w :: rest) v s = OutOfRange.
Proof.
  intros Hlt.
  destruct (read_segment i (ax :: ay :: bx :: by_ :: q :: w :: rest) v s)
    as [[v' s']|] eqn:H; [|reflexivity].
  exfalso. revert H. unfold Streams.read_segment. cbn [extract].
  destruct (Streams.create_river_outline _ _ _ _ _) as [xx yy]. simpl in Hlt.
  intros H. inv_bind H. do 6 inv_bind H. inv_bind H. apply at_length in Hx6. lia.
Qed.

(** C1. A record whose end points are closer than 0.1 in both coordinates
    has an empty outline, and [read_streams] then reads [xx[0]] outside the
    vector. *)
Theorem read_streams_short_segment_out_of_range uninit :
  create_river_outline (mkPoint2 0 0) (mkPoint2 0.05 0.05) 1 = ([], []) /\
  read_streams uninit (Some Examples.short_file) Streams_init = OutOfRange.
Proof. split; reflexivity. Qed.

(** C7. When the file cannot be opened, [read_streams] returns false and
    leaves the object as it was; on a freshly constructed object all the
    containers of the catalog are therefore still empty. *)
Theorem read_streams_cannot_open uninit :
  (forall s, read_streams uninit None s = Ok (false, s)) /\
  exists s', read_streams uninit None Streams_init = Ok (false, s') /\
    N_seg s' = 0%nat /\
    st_A s' = [] /\ st_B s' = [] /\ st_Q_rate s' = [] /\ st_length s' = [] /\
    st_width s' = [] /\ st_Xoutline s' = [] /\ st_Youtline s' = [] /\
    st_Xmin s' = [] /\ st_Xmax s' = [] /\ st_Ymin s' = [] /\ st_Ymax s' = [] /\
    stream_triangles s' = [] /\ stream_ids s' = [] /\ stream_tree s' = [].
Proof.
  split; [reflexivity|]. exists Streams_init. repeat split.
Qed.

(** [read_streams] never writes [river_outline]. *)
Lemma read_segments_river_outline n : forall i lines v s s',
  read_segments n i lines v s = Ok s' ->
  river_outline s' = river_outline s /\ river_rect s' = river_rect s.
Proof.
  induction n as [|n IH]; intros i lines v s s' H.
  - inversion H; subst. split; reflexivity.
  - cbn [Streams.read_segments] in H. destruct (getline lines) as [buffer rest].
    inv_bind H. destruct x as [v1 s1]. simpl in H.
    apply IH in H. use_read_segment Hx. destruct H as [-> ->]. split; assumption.
Qed.

Lemma read_streams_river_outline uninit datafile s flag s' :
  read_streams uninit datafile s = Ok (flag, s') ->
  river_outline s' = river_outline s.
Proof.
  unfold Streams.read_streams. destruct datafile as [f|]; intros H.
  - inv_bind H. inversion H; subst. simpl.
    apply read_segments_river_outline in Hx. destruct Hx as [-> _]. reflexivity.
  - inversion H; subst. reflexivity.
Qed.

End CatalogFacts.

(** The catalog of the one-segment example. *)
Lemma read_streams_horizontal :
  Streams.read_streams Examples.sqrt_id Examples.meet_lines Examples.zero_locals
    (Some Examples.horizontal_file) Streams_init
  = Ok (true, Examples.horizontal_catalog).
Proof. reflexivity. Qed.

Lemma read_streams_length_and_bounding_box_witness :
  Streams.read_streams Examples.sqrt_id Examples.meet_lines Examples.zero_locals
    (Some Examples.horizontal_file) Streams_init
  = Ok (true, Examples.horizontal_catalog) /\
  Streams.segment_measured Examples.sqrt_id Examples.meet_lines
    Examples.horizontal_catalog 0.
Proof.
  split; [reflexivity|].
  apply (read_streams_length_and_bounding_box Examples.sqrt_id Examples.meet_lines
           Examples.zero_locals Examples.horizontal_file Streams_init).
  - reflexivity.
  - simpl. lia.
Defined.

Lemma read_streams_triangle_catalog_witness :
  exists s', Streams.read_streams Examples.sqrt_id Examples.meet_lines
               Examples.zero_locals (Some Examples.horizontal_file) Streams_init
             = Ok (true, s') /\
    N_seg s' = 1%nat /\
    length (stream_triangles s') = (length (stream_triangles Streams_init) + 2 * 1)%nat /\
    length (stream_ids s') = (length (stream_ids Streams_init) + 2 * 1)%nat /\
    (forall i, (i < 1)%nat ->
       stream_ids s' !! (length (stream_ids Streams_init) + 2 * i)%nat = Some i /\
       stream_ids s' !! (length (stream_ids Streams_init) + 2 * i + 1)%nat = Some i) /\
    (stream_triangles Streams_init = [] -> stream_ids Streams_init = [] ->
       length (stream_triangles s') = (2 * 1)%nat /\
       length (stream_ids s') = (2 * 1)%nat /\
       forall i, (i < 1)%nat ->
         stream_ids s' !! (2 * i)%nat = Some i /\
         stream_ids s' !! (2 * i + 1)%nat = Some i).
Proof.
  apply (read_streams_triangle_catalog Examples.sqrt_id Examples.meet_lines
           Examples.zero_locals Examples.horizontal_file 1 Streams_init).
  - reflexivity.
  - reflexivity.
  - constructor; [reflexivity | constructor].
Defined.

(** C10 as worded does not hold after every successful [read_streams]: the
    one-record file, well formed, read a second time into the object that
    holds its catalog, leaves [N_seg] = 1 and four triangles and four ids,
    not two, and the ids are 0, 0, 0, 0. *)
Lemma read_streams_second_load_keeps_old_triangles :
  Streams.well_formed_record Examples.sqrt_id Examples.meet_lines
    [0; 0; 10; 0; 5; 1] = true /\
  Streams.read_streams Examples.sqrt_id Examples.meet_lines Examples.zero_locals
    (Some Examples.horizontal_file) Examples.horizontal_catalog
  = Ok (true, Examples.reloaded_catalog) /\
  N_seg Examples.reloaded_catalog = 1%nat /\
  length (stream_triangles Examples.reloaded_catalog) = 4%nat /\
  stream_ids Examples.reloaded_catalog = [0; 0; 0; 0]%nat.
Proof. repeat split. Qed.

(** * Properties of the point query *)


(** ** The text of [get_stream_rate], with the call retyped

    The lemmas of this section are about [get_stream_rate_loop] as it is
    defined above, with the entry of [river_outline] handed to
    [setup_river_rect]; they say what the function was written to do, not
    what a run of the program does. *)

Section PointQueryFacts.

Variable point_inside : list Point2 -> Point2 -> bool.

Local Abbreviation get_stream_rate_loop := (Streams.get_stream_rate_loop point_inside).
Local Abbreviation get_stream_rate := (Streams.get_stream_rate point_inside).

(** As long as [river_outline] is empty, the query returns no rate but 0:
    as soon as the point lies in a bounding box, [river_outline[i_seg]] is
    read outside the vector. *)
Lemma get_stream_rate_loop_empty_outline p n : forall i s r s',
  river_outline s = [] ->
  get_stream_rate_loop n i p s = Ok (r, s') -> r = 0 /\ s' = s.
Proof.
  induction n as [|n IH]; intros i s r s' Hempty H.
  - inversion H; subst. split; reflexivity.
  - cbn [Streams.get_stream_rate_loop] in H. inv_bind H. destruct x.
    + rewrite Hempty in H. discriminate.
    + eapply IH; eauto.
Qed.

(** The text of the function with the call retyped, on the catalog loaded
    from the one-segment file: the query at the point (5, 0), which lies on
    the segment, reads [river_outline[0]] while [river_outline] is
    empty. *)
Lemma get_stream_rate_loaded_catalog_out_of_range :
  river_outline Examples.horizontal_catalog = [] /\
  Streams.in_bounding_box (mkPoint3 5 0 0) 0 Examples.horizontal_catalog = Ok true /\
  get_stream_rate (mkPoint3 5 0 0) Examples.horizontal_catalog = OutOfRange.
Proof. repeat split. Qed.

(** Reshaping the scratch cell overwrites its four vertices: what it held
    before does not matter. *)
Lemma setup_river_rect_loop_overwrites outline (c1 c2 : list Point2) :
  length c1 = 4%nat -> length c2 = 4%nat ->
  setup_river_rect_loop vertices_per_cell 0 outline c1 =
  setup_river_rect_loop vertices_per_cell 0 outline c2.
Proof.
  intros H1 H2.
  destruct c1 as [|? [|? [|? [|? [|? ?]]]]]; try discriminate.
  destruct c2 as [|? [|? [|? [|? [|? ?]]]]]; try discriminate.
  unfold vertices_per_cell. cbn [setup_river_rect_loop].
  destruct outline as [|o0 [|o1 [|o2 [|o3 ?]]]]; reflexivity.
Qed.

Lemma setup_river_rect_loop_length outline n : forall i c c',
  setup_river_rect_loop n i outline c = Ok c' -> length c' = length c.
Proof.
  induction n as [|n IH]; intros i c c' H.
  - inversion H; reflexivity.
  - cbn [setup_river_rect_loop] in H. do 2 inv_bind H.
    apply IH in H. rewrite H. apply length_insert.
Qed.

Lemma set_river_rect_id s : set_river_rect (river_rect s) s = s.
Proof. destruct s; reflexivity. Qed.

(** The query changes nothing of the object but the scratch cell, which
    keeps its four vertices. *)
Lemma get_stream_rate_loop_frame p n : forall i s r s',
  length (river_rect s) = 4%nat ->
  get_stream_rate_loop n i p s = Ok (r, s') ->
  exists c', s' = set_river_rect c' s /\ length c' = 4%nat.
Proof.
  induction n as [|n IH]; intros i s r s' L H.
  - inversion H; subst. exists (river_rect s'). rewrite set_river_rect_id. auto.
  - cbn [Streams.get_stream_rate_loop] in H. inv_bind H. destruct x.
    + bind_inv H as outline Ho. bind_inv H as s1 Hs1.
      unfold setup_river_rect in Hs1. bind_inv Hs1 as c1 Hc1.
      inversion Hs1; subst; clear Hs1.
      pose proof (setup_river_rect_loop_length _ _ _ _ _ Hc1) as Lc. rewrite L in Lc.
      destruct (point_inside _ _).
      * bind_inv H as rate Hrate. inversion H; subst. eauto.
      * apply IH in H; [|exact Lc]. destruct H as (c' & -> & Lc'). eauto.
    + eapply IH; eauto.
Qed.

(** The returned rate does not depend on what the scratch cell held. *)
Lemma get_stream_rate_loop_scratch p n : forall i s c r s',
  length (river_rect s) = 4%nat -> length c = 4%nat ->
  get_stream_rate_loop n i p s = Ok (r, s') ->
  (s' = s /\ get_stream_rate_loop n i p (set_river_rect c s) = Ok (r, set_river_rect c s)) \/
  get_stream_rate_loop n i p (set_river_rect c s) = Ok (r, s').
Proof.
  induction n as [|n IH]; intros i s c r s' L Lc H.
  - inversion H; subst. left. split; reflexivity.
  - cbn [Streams.get_stream_rate_loop] in H |- *.
    change (in_bounding_box p i (set_river_rect c s)) with (in_bounding_box p i s).
    inv_bind H. rewrite Hx. simpl. destruct x.
    + right. change (river_outline (set_river_rect c s)) with (river_outline s).
      bind_inv H as outline Ho. rewrite Ho. simpl.
      assert (E : setup_river_rect outline (set_river_rect c s) = setup_river_rect outline s).
      { unfold setup_river_rect. change (river_rect (set_river_rect c s)) with c.
        rewrite (setup_river_rect_loop_overwrites outline c (river_rect s) Lc L).
        destruct (setup_river_rect_loop _ _ _ _); reflexivity. }
      rewrite E. exact H.
    + apply IH; assumption.
Qed.

(** On an object whose [river_outline] has been filled, asking twice gives
    the same rate. *)
Lemma get_stream_rate_twice p s r s' :
  length (river_rect s) = 4%nat ->
  get_stream_rate p s = Ok (r, s') -> get_stream_rate p s' = Ok (r, s').
Proof.
  unfold Streams.get_stream_rate. intros L H.
  destruct (get_stream_rate_loop_frame p _ _ _ _ _ L H) as (c' & E & Lc').
  assert (EN : N_seg s' = N_seg s) by (rewrite E; reflexivity).
  rewrite EN.
  destruct (get_stream_rate_loop_scratch p _ _ _ c' _ _ L Lc' H) as [[Es H']|H'].
  - rewrite E. exact H'.
  - rewrite <- E in H'. exact H'.
Qed.

End PointQueryFacts.

(** * Properties of the recharge of a cell *)

Lemma map_assign_keys k v (m : int_map) k' :
  k' ∈ (map_assign k v m).*1 <-> k' = k \/ k' ∈ m.*1.
Proof.
  induction m as [|[k0 v0] m IH]; simpl.
  - rewrite elem_of_cons. tauto.
  - destruct (Nat.ltb_spec k k0); [apply elem_of_cons|].
    destruct (Nat.eqb_spec k k0); simpl; subst; rewrite !elem_of_cons; [tauto|].
    rewrite IH. tauto.
Qed.

Lemma map_assign_sorted k v (m : int_map) :
  StronglySorted lt m.*1 -> StronglySorted lt (map_assign k v m).*1.
Proof.
  induction m as [|[k0 v0] m IH]; simpl; intros Hs.
  - repeat constructor.
  - inversion Hs as [|? ? Hs' Hall]; subst.
    destruct (Nat.ltb_spec k k0) as [Hlt|Hge].
    + simpl. constructor; [exact Hs|]. constructor; [exact Hlt|].
      eapply Forall_impl; [exact Hall|]. intros; simpl in *; lia.
    + destruct (Nat.eqb_spec k k0) as [->|Hne].
      * simpl. constructor; assumption.
      * simpl. constructor; [apply IH; exact Hs'|].
        apply Forall_forall. intros x Hx. apply map_assign_keys in Hx.
        destruct Hx as [->|Hx]; [lia|]. rewrite Forall_forall in Hall. auto.
Qed.

Section RechargeFacts.

Variable find_intersection_in_AABB_TREE :
  list ine_Triangle -> list ine_Triangle -> list double -> list double ->
  bool * list nat.
Variable polyXpoly :
  list double -> list double -> list double -> list double -> clip_result.

Local Abbreviation recharge_step := (Streams.recharge_step polyXpoly).
Local Abbreviation recharge_loop := (Streams.recharge_loop polyXpoly).
Local Abbreviation get_stream_recharge :=
  (Streams.get_stream_recharge find_intersection_in_AABB_TREE polyXpoly).
Local Abbreviation clip := (Streams.clip polyXpoly).
Local Abbreviation clip_throws := (Streams.clip_throws polyXpoly).
Local Abbreviation contribution := (Streams.contribution polyXpoly).
Local Abbreviation candidate := (Streams.candidate find_intersection_in_AABB_TREE).
Local Abbreviation ids_in_range := (Streams.ids_in_range find_intersection_in_AABB_TREE).

(** The map of unique ids: its keys are sorted, and they are the ids of the
    triangles visited, besides the keys it had. *)
Lemma collect_unique_ids_spec s ids : forall m m',
  collect_unique_ids s ids m = Ok m' ->
  StronglySorted lt m.*1 ->
  StronglySorted lt m'.*1 /\
  forall k, k ∈ m'.*1 <-> k ∈ m.*1 \/ exists t, t ∈ ids /\ stream_ids s !! t = Some k.
Proof.
  induction ids as [|t ids IH]; intros m m' H Hs.
  - inversion H; subst. split; [exact Hs|]. intros k. split; [auto|].
    intros [Hk|(t & Ht & _)]; [exact Hk|]. inversion Ht.
  - cbn [collect_unique_ids] in H. bind_inv H as k0 Hk0. apply at_Ok in Hk0.
    apply IH in H; [|apply map_assign_sorted; exact Hs].
    destruct H as [Hs' Hin]. split; [exact Hs'|]. intros k.
    rewrite Hin, map_assign_keys. split.
    + intros [[->|Hk]|(t' & Ht' & E)].
      * right. exists t. split; [apply elem_of_cons; auto | exact Hk0].
      * left. exact Hk.
      * right. exists t'. split; [apply elem_of_cons; auto | exact E].
    + intros [Hk|(t' & Ht' & E)]; [tauto|].
      apply elem_of_cons in Ht'. destruct Ht' as [->|Ht'].
      * left. left. congruence.
      * right. eauto.
Qed.

Lemma collect_unique_ids_ok s ids : forall m,
  Forall (fun t => (t < length (stream_ids s))%nat) ids ->
  exists m', collect_unique_ids s ids m = Ok m'.
Proof.
  induction ids as [|t ids IH]; intros m Hr; [simpl; eauto|].
  inversion Hr as [|? ? Ht Hr']; subst. cbn [collect_unique_ids].
  destruct (lookup_lt_is_Some_2 _ _ Ht) as [k Hk].
  rewrite (at_lookup _ _ _ Hk). simpl. apply IH. exact Hr'.
Qed.

(** What one pass over a candidate adds to the output. *)
Lemma recharge_step_spec s xp yp it r r' :
  recharge_step s xp yp it r = Ok r' ->
  let cs := from_option (fun c => [c]) [] (contribution s xp yp (fst it)) in
  r_xc r' = r_xc r ++ cs.*1.*1 /\ r_yc r' = r_yc r ++ cs.*1.*2 /\
  r_Q r' = r_Q r ++ cs.*2 /\
  r_cout r' = r_cout r ++
    (if clip_throws s xp yp (fst it) then [Boost_failed_to_find_intersection] else []).
Proof.
  unfold Streams.recharge_step, Streams.contribution, Streams.clip_throws, Streams.clip.
  intros H. bind_inv H as xo Hxo. bind_inv H as yo Hyo.
  apply at_Ok in Hxo, Hyo. rewrite Hxo, Hyo. simpl.
  destruct (polyXpoly xp yp xo yo) as [area xc yc|].
  - bind_inv H as rate Hrate. apply at_Ok in Hrate. rewrite Hrate.
    inversion H; subst; simpl. rewrite app_nil_r. auto.
  - inversion H; subst; simpl. rewrite !app_nil_r. auto.
Qed.

Lemma recharge_loop_spec s xp yp its : forall r r',
  recharge_loop s xp yp its r = Ok r' ->
  let cs := omap (contribution s xp yp) its.*1 in
  r_xc r' = r_xc r ++ cs.*1.*1 /\ r_yc r' = r_yc r ++ cs.*1.*2 /\
  r_Q r' = r_Q r ++ cs.*2 /\
  r_cout r' = r_cout r ++
    replicate (length (List.filter (clip_throws s xp yp) its.*1))
      Boost_failed_to_find_intersection.
Proof.
  induction its as [|it its IH]; intros r r' H.
  - inversion H; subst. simpl. rewrite !app_nil_r. auto.
  - cbn [Streams.recharge_loop] in H. bind_inv H as r1 H1.
    apply recharge_step_spec in H1. apply IH in H.
    destruct H1 as (X1 & Y1 & Q1 & C1). destruct H as (X & Y & Q & C).
    rewrite X, Y, Q, C, X1, Y1, Q1, C1, <- !app_assoc. cbn [fmap list_fmap omap list_omap List.filter].
    destruct (contribution s xp yp it.1) as [c|], (clip_throws s xp yp it.1);
      simpl; auto.
Qed.

Lemma recharge_loop_ok s xp yp its : forall r,
  Forall (fun k => (k < length (st_Xoutline s))%nat /\
                   (k < length (st_Youtline s))%nat /\
                   (k < length (st_Q_rate s))%nat) its.*1 ->
  exists r', recharge_loop s xp yp its r = Ok r'.
Proof.
  induction its as [|it its IH]; intros r Hr; [simpl; eauto|].
  inversion Hr as [|? ? (Hx & Hy & Hq) Hr']; subst.
  cbn [Streams.recharge_loop]. unfold Streams.recharge_step.
  destruct (lookup_lt_is_Some_2 _ _ Hx) as [xo Hxo].
  destruct (lookup_lt_is_Some_2 _ _ Hy) as [yo Hyo].
  destruct (lookup_lt_is_Some_2 _ _ Hq) as [rate Hrate].
  rewrite (at_lookup _ _ _ Hxo), (at_lookup _ _ _ Hyo). simpl.
  destruct (polyXpoly xp yp xo yo).
  - rewrite (at_lookup _ _ _ Hrate). simpl. apply IH. exact Hr'.
  - simpl. apply IH. exact Hr'.
Qed.

Lemma omap_length_le {U T} (f : U -> option T) (l : list U) :
  (length (omap f l) <= length l)%nat.
Proof.
  induction l as [|x l IH]; [reflexivity|].
  cbn [omap list_omap]. destruct (f x); cbn [length]; lia.
Qed.

Lemma sorted_NoDup (l : list nat) : StronglySorted lt l -> NoDup l.
Proof.
  induction 1 as [|x l Hs IH Hall]; constructor; [|exact IH].
  intros Hin. rewrite Forall_forall in Hall. specialize (Hall x Hin). lia.
Qed.

(** The output of [get_stream_recharge], in terms of the candidates. *)
Lemma get_stream_recharge_spec s xp yp tf r :
  get_stream_recharge s xp yp = Ok (tf, r) ->
  exists cands : list nat,
    StronglySorted lt cands /\
    (forall k, k ∈ cands <-> candidate s xp yp k) /\
    (let cs := omap (contribution s xp yp) cands in
     r_xc r = cs.*1.*1 /\ r_yc r = cs.*1.*2 /\ r_Q r = cs.*2) /\
    r_cout r = replicate (length (List.filter (clip_throws s xp yp) cands))
                 Boost_failed_to_find_intersection.
Proof.
  unfold Streams.get_stream_recharge, Streams.candidate.
  destruct (find_intersection_in_AABB_TREE _ _ xp yp) as [tf' ids]. simpl.
  destruct tf'; intros H.
  - bind_inv H as m Hm. bind_inv H as r1 Hr. inversion H; subst; clear H.
    apply collect_unique_ids_spec in Hm; [|constructor]. destruct Hm as [Hs Hin].
    apply recharge_loop_spec in Hr. simpl in Hr. destruct Hr as (X & Y & Q & C).
    exists m.*1. split; [exact Hs|]. split.
    + intros k. rewrite Hin. split.
      * intros [Hk|Ht]; [inversion Hk | split; [reflexivity | exact Ht]].
      * intros [_ Ht]. right. exact Ht.
    + auto.
  - inversion H; subst; clear H. exists []. split; [constructor|]. split.
    + intros k. split; [intros Hk; inversion Hk | intros [Hf _]; discriminate].
    + simpl. auto.
Qed.

(** With the ids in range, no vector is left. *)
Lemma get_stream_recharge_ok s xp yp :
  ids_in_range s xp yp -> exists tf r, get_stream_recharge s xp yp = Ok (tf, r).
Proof.
  unfold Streams.ids_in_range, Streams.get_stream_recharge.
  destruct (find_intersection_in_AABB_TREE _ _ xp yp) as [tf ids]. simpl.
  intros [Hids Hsegs]. destruct tf; [|eauto].
  destruct (collect_unique_ids_ok s ids [] Hids) as [m Hm].
  rewrite Hm. simpl.
  apply collect_unique_ids_spec in Hm; [|constructor]. destruct Hm as [_ Hin].
  destruct (recharge_loop_ok s xp yp m no_recharge) as [r Hr].
  - apply Forall_forall. intros k Hk. apply Hin in Hk.
    destruct Hk as [Hk|(t & _ & Ht)]; [inversion Hk|].
    rewrite Forall_forall in Hsegs. apply Hsegs. eapply list_elem_of_lookup_2; eauto.
  - rewrite Hr. simpl. eauto.
Qed.

(** Whatever the two routines of cgal_functions.h do,
    [get_stream_recharge] goes through the candidate segments once each, in
    ascending order of their ids, and a candidate adds at most one entry to
    the output. *)
Lemma get_stream_recharge_contributions s xp yp tf r :
  get_stream_recharge s xp yp = Ok (tf, r) ->
  exists cands : list nat,
    StronglySorted lt cands /\
    (forall k, k ∈ cands <-> candidate s xp yp k) /\
    (let cs := omap (contribution s xp yp) cands in
     r_xc r = cs.*1.*1 /\ r_yc r = cs.*1.*2 /\ r_Q r = cs.*2) /\
    (length (r_Q r) <= length cands)%nat.
Proof.
  intros H. destruct (get_stream_recharge_spec s xp yp tf r H)
    as (cands & Hs & Hin & Hout & _).
  exists cands. repeat (split; [assumption|]).
  destruct Hout as (_ & _ & ->). rewrite length_fmap. apply omap_length_le.
Qed.

Lemma contribution_or_throws s xp yp k :
  (k < length (st_Xoutline s))%nat -> (k < length (st_Youtline s))%nat ->
  (k < length (st_Q_rate s))%nat ->
  exists xo yo rate,
    st_Q_rate s !! k = Some rate /\
    clip s xp yp k = Some (polyXpoly xp yp xo yo) /\
    match polyXpoly xp yp xo yo with
    | Clipped area xc yc =>
        contribution s xp yp k = Some (xc, yc, area * rate) /\
        clip_throws s xp yp k = false
    | ClipThrows => contribution s xp yp k = None /\ clip_throws s xp yp k = true
    end.
Proof.
  intros Hx Hy Hq.
  destruct (lookup_lt_is_Some_2 _ _ Hx) as [xo Hxo].
  destruct (lookup_lt_is_Some_2 _ _ Hy) as [yo Hyo].
  destruct (lookup_lt_is_Some_2 _ _ Hq) as [rate Hrate].
  exists xo, yo, rate.
  unfold Streams.contribution, Streams.clip_throws, Streams.clip.
  rewrite Hxo, Hyo, Hrate. simpl.
  destruct (polyXpoly xp yp xo yo); auto.
Qed.

Lemma contributed_or_logged s xp yp (cands : list nat) :
  Forall (fun k => (k < length (st_Xoutline s))%nat /\
                   (k < length (st_Youtline s))%nat /\
                   (k < length (st_Q_rate s))%nat) cands ->
  (length (omap (contribution s xp yp) cands) +
   length (List.filter (clip_throws s xp yp) cands) = length cands)%nat.
Proof.
  induction 1 as [|k cands (Hx & Hy & Hq) _ IH]; [reflexivity|].
  destruct (contribution_or_throws s xp yp k Hx Hy Hq) as (xo & yo & rate & _ & _ & Hc).
  cbn [omap list_omap List.filter].
  destruct (polyXpoly xp yp xo yo); destruct Hc as [-> ->]; simpl; lia.
Qed.

(** C5. When the clip routine throws on a candidate, the message is written
    and that candidate adds nothing, while every candidate that is clipped
    has its centroid and weighted rate in the output: the call completes,
    and each candidate is either in the output or in the log. *)
Theorem get_stream_recharge_survives_clip_failure s xp yp :
  ids_in_range s xp yp ->
  exists tf r cands,
    get_stream_recharge s xp yp = Ok (tf, r) /\
    NoDup cands /\
    (forall k, k ∈ cands <-> candidate s xp yp k) /\
    (forall k, k ∈ cands ->
       match clip s xp yp k with
       | Some (Clipped area xc yc) =>
           exists j rate, st_Q_rate s !! k = Some rate /\
             r_xc r !! j = Some xc /\ r_yc r !! j = Some yc /\
             r_Q r !! j = Some (area * rate)
       | Some ClipThrows => Boost_failed_to_find_intersection ∈ r_cout r
       | None => False
       end) /\
    (length (r_Q r) + length (r_cout r) = length cands)%nat.
Proof.
  intros Hrange. destruct (get_stream_recharge_ok s xp yp Hrange) as (tf & r & Hrun).
  destruct (get_stream_recharge_spec s xp yp tf r Hrun)
    as (cands & Hs & Hin & (X & Y & Q) & C).
  destruct Hrange as [_ Hsegs].
  assert (Hr : Forall (fun k => (k < length (st_Xoutline s))%nat /\
                   (k < length (st_Youtline s))%nat /\
                   (k < length (st_Q_rate s))%nat) cands).
  { apply Forall_forall. intros k Hk. apply Hin in Hk.
    destruct Hk as [_ (t & _ & Ht)]. rewrite Forall_forall in Hsegs.
    apply Hsegs. eapply list_elem_of_lookup_2; eauto. }
  exists tf, r, cands. split; [exact Hrun|]. split; [apply sorted_NoDup; exact Hs|].
  split; [exact Hin|]. split.
  - intros k Hk. rewrite Forall_forall in Hr. destruct (Hr k Hk) as (Hx & Hy & Hq).
    destruct (contribution_or_throws s xp yp k Hx Hy Hq)
      as (xo & yo & rate & Hrate & -> & Hc).
    destruct (polyXpoly xp yp xo yo) as [area xc yc|].
    + destruct Hc as [Hc _].
      assert (Hel : (xc, yc, area * rate) ∈ omap (contribution s xp yp) cands).
      { apply list_elem_of_omap. exists k. auto. }
      apply list_elem_of_lookup_1 in Hel. destruct Hel as [j Hj].
      exists j, rate. rewrite X, Y, Q, !list_lookup_fmap, Hj. auto.
    + destruct Hc as [_ Hc]. rewrite C.
      assert (Hel : k ∈ List.filter (clip_throws s xp yp) cands).
      { apply list_elem_of_In, filter_In. split; [apply list_elem_of_In; exact Hk | exact Hc]. }
      destruct (List.filter (clip_throws s xp yp) cands); [inversion Hel|].
      simpl. apply elem_of_cons. auto.
  - rewrite Q, C, length_fmap, length_replicate. apply contributed_or_logged. exact Hr.
Qed.

End RechargeFacts.

(** ** The recharge with the clip routine of the spec *)

Section RechargeOfTheSpec.

Variable find_intersection_in_AABB_TREE :
  list ine_Triangle -> list ine_Triangle -> list double -> list double ->
  bool * list nat.
Variable exact_intersection :
  list double -> list double -> list double -> list double -> intersection.
Variable clip_fails :
  list double -> list double -> list double -> list double -> bool.
Variables d_xc d_yc : double.

Local Abbreviation polyXpoly :=
  (Streams.polyXpoly_of_spec exact_intersection clip_fails d_xc d_yc).
Local Abbreviation emitted :=
  (Streams.emitted exact_intersection clip_fails d_xc d_yc).
Local Abbreviation get_stream_recharge :=
  (Streams.get_stream_recharge find_intersection_in_AABB_TREE polyXpoly).
Local Abbreviation candidate := (Streams.candidate find_intersection_in_AABB_TREE).

Lemma contribution_emitted s xp yp k :
  Streams.contribution polyXpoly s xp yp k = emitted s xp yp k.
Proof.
  unfold Streams.contribution, Streams.clip, Streams.emitted, Streams.polyXpoly_of_spec.
  destruct (st_Xoutline s !! k) as [xo|]; [|reflexivity].
  destruct (st_Youtline s !! k) as [yo|]; [|reflexivity]. simpl.
  destruct (clip_fails xp yp xo yo); [reflexivity|].
  destruct (exact_intersection xp yp xo yo);
    destruct (st_Q_rate s !! k); reflexivity.
Qed.


End RechargeOfTheSpec.



Lemma get_stream_recharge_survives_clip_failure_witness :
  exists tf r cands,
    Streams.get_stream_recharge Examples.report_both Examples.clip_or_throw
      Examples.two_catalog Examples.footprint_x Examples.footprint_y = Ok (tf, r) /\
    NoDup cands /\
    (forall k, k ∈ cands <->
       Streams.candidate Examples.report_both Examples.two_catalog
         Examples.footprint_x Examples.footprint_y k) /\
    (forall k, k ∈ cands ->
       match Streams.clip Examples.clip_or_throw Examples.two_catalog
               Examples.footprint_x Examples.footprint_y k with
       | Some (Clipped area xc yc) =>
           exists j rate, st_Q_rate Examples.two_catalog !! k = Some rate /\
             r_xc r !! j = Some xc /\ r_yc r !! j = Some yc /\
             r_Q r !! j = Some (area * rate)
       | Some ClipThrows => Boost_failed_to_find_intersection ∈ r_cout r
       | None => False
       end) /\
    (length (r_Q r) + length (r_cout r) = length cands)%nat.
Proof.
  apply (get_stream_recharge_survives_clip_failure Examples.report_both
           Examples.clip_or_throw Examples.two_catalog
           Examples.footprint_x Examples.footprint_y).
  split; simpl; repeat (constructor; [lia|]); constructor.
Defined.

(** * Properties of the flow driver *)

Import GWFLOW.

Section FlowFacts.

Variable dim : nat.
Variable SparseMatrix : Type.
Variable ConstraintMatrix : Type.
Variable make_constraints : DoFHandler -> ConstraintMatrix.
Variable reinit_matrix : DoFHandler -> ConstraintMatrix -> SparseMatrix.
Variable wells_add_contributions : Vector -> DoFHandler -> ConstraintMatrix -> Vector.
Variable dofs_per_cell : nat.
Variable n_q_points : nat.
Variable n_face_q_points : nat.
Variable stiffness_term : Cell -> nat -> nat -> nat -> double.
Variable recharge_values : Cell -> nat -> nat -> double.
Variable recharge_weight : Cell -> nat -> double.
Variable shape_value : Cell -> nat -> nat -> nat -> double.
Variable face_JxW : Cell -> nat -> nat -> double.
Variable distribute_local_to_global :
  ConstraintMatrix -> FullMatrix -> Vector -> list nat ->
  SparseMatrix * Vector -> SparseMatrix * Vector.
Variable compress_matrix : SparseMatrix -> SparseMatrix.
Variable compress_vector : Vector -> Vector.
Variable SolverCG_solve : SolverControl -> SparseMatrix -> Vector -> solver_outcome.
Variable constraints_distribute : ConstraintMatrix -> Vector -> Vector.

Local Abbreviation state := (GWFLOW.GWFLOW SparseMatrix ConstraintMatrix).
Local Abbreviation is_top_face := (GWFLOW.is_top_face dim).
Local Abbreviation top_faces_from := (GWFLOW.top_faces_from dim).
Local Abbreviation recharge_events := (GWFLOW.recharge_events dim).
Local Abbreviation face_recharge :=
  (GWFLOW.face_recharge dofs_per_cell n_face_q_points recharge_values recharge_weight
     shape_value face_JxW).
Local Abbreviation face_loop :=
  (GWFLOW.face_loop dim dofs_per_cell n_face_q_points recharge_values recharge_weight
     shape_value face_JxW).
Local Abbreviation assemble_cell :=
  (GWFLOW.assemble_cell dim SparseMatrix ConstraintMatrix dofs_per_cell n_q_points
     n_face_q_points stiffness_term recharge_values recharge_weight shape_value face_JxW
     distribute_local_to_global).
Local Abbreviation cell_loop :=
  (GWFLOW.cell_loop dim SparseMatrix ConstraintMatrix dofs_per_cell n_q_points
     n_face_q_points stiffness_term recharge_values recharge_weight shape_value face_JxW
     distribute_local_to_global).
Local Abbreviation assemble :=
  (GWFLOW.assemble dim SparseMatrix ConstraintMatrix dofs_per_cell n_q_points
     n_face_q_points stiffness_term recharge_values recharge_weight shape_value face_JxW
     distribute_local_to_global compress_matrix compress_vector).
Local Abbreviation setup_system :=
  (GWFLOW.setup_system SparseMatrix ConstraintMatrix make_constraints reinit_matrix).
Local Abbreviation wells_step :=
  (GWFLOW.wells_step SparseMatrix ConstraintMatrix wells_add_contributions).
Local Abbreviation solve :=
  (GWFLOW.solve SparseMatrix ConstraintMatrix SolverCG_solve constraints_distribute).
Local Abbreviation solver_control_of :=
  (GWFLOW.solver_control_of SparseMatrix ConstraintMatrix).
Local Abbreviation set_top_boundary_ids :=
  (GWFLOW.set_top_boundary_ids SparseMatrix ConstraintMatrix).
Local Abbreviation Simulate :=
  (GWFLOW.Simulate dim SparseMatrix ConstraintMatrix make_constraints reinit_matrix
     wells_add_contributions dofs_per_cell n_q_points n_face_q_points stiffness_term
     recharge_values recharge_weight shape_value face_JxW distribute_local_to_global
     compress_matrix compress_vector SolverCG_solve constraints_distribute).

(** The test of [assemble] on the boundary id reads the dimension and two
    constants. *)
Lemma is_top_face_spec (f : Face) :
  is_top_face f = true <->
  (boundary_id f = 5%nat /\ dim = 3%nat) \/ (boundary_id f = 3%nat /\ dim = 2%nat).
Proof.
  unfold GWFLOW.is_top_face.
  rewrite orb_true_iff, !andb_true_iff, !Nat.eqb_eq. reflexivity.
Qed.

Lemma top_faces_from_spec faces : forall i j,
  j ∈ top_faces_from i faces <->
  exists f, (i <= j)%nat /\ faces !! (j - i)%nat = Some f /\
    at_boundary f = true /\ is_top_face f = true.
Proof.
  induction faces as [|f faces IH]; intros i j.
  - simpl. split; [intros H; inversion H | intros (f & _ & H & _); discriminate].
  - cbn [GWFLOW.top_faces_from]. rewrite elem_of_app, IH. split.
    + intros [Hj|(f' & Hle & Hl & Hb & Ht)].
      * destruct (at_boundary f && is_top_face f) eqn:E; [|inversion Hj].
        apply list_elem_of_singleton in Hj. subst j.
        apply andb_true_iff in E. destruct E as [Hb Ht]. exists f. rewrite Nat.sub_diag.
        split; [lia|]. split; [reflexivity|]. split; assumption.
      * exists f'. replace (j - i)%nat with (S (j - S i)) by lia.
        repeat split; [lia | exact Hl | exact Hb | exact Ht].
    + intros (f' & Hle & Hl & Hb & Ht).
      destruct (decide (j = i)) as [->|Hne].
      * left. rewrite Nat.sub_diag in Hl. simpl in Hl. simplify_eq.
        rewrite Hb, Ht. simpl. apply list_elem_of_singleton. reflexivity.
      * right. exists f'. replace (j - i)%nat with (S (j - S i)) in Hl by lia.
        repeat split; [lia | exact Hl | exact Hb | exact Ht].
Qed.

(** The loop over the faces integrates the recharge on the faces that pass
    the test, and on no other. *)
Lemma face_loop_spec c n faces : forall i acc,
  face_loop c n i faces acc =
  (foldl (fun rhs j => face_recharge c j rhs) (fst acc) (top_faces_from i faces),
   snd acc ++ map (ev_face_recharge n) (top_faces_from i faces)).
Proof.
  induction faces as [|f faces IH]; intros i [rhs evs].
  - simpl. rewrite app_nil_r. reflexivity.
  - cbn [GWFLOW.face_loop GWFLOW.top_faces_from]. rewrite IH.
    destruct (at_boundary f); [destruct (GWFLOW.is_top_face dim f)|]; simpl;
      rewrite <- ?app_assoc; reflexivity.
Qed.

Lemma assemble_cell_frame n c (g : state) :
  dof_handler (assemble_cell n c g) = dof_handler g /\
  constraints (assemble_cell n c g) = constraints g /\
  top_boundary_ids (assemble_cell n c g) = top_boundary_ids g /\
  locally_relevant_solution (assemble_cell n c g) = locally_relevant_solution g /\
  trace (assemble_cell n c g) =
    trace g ++ (if is_locally_owned c
                then map (ev_face_recharge n) (top_faces_from 0 (cell_faces c))
                else []).
Proof.
  unfold GWFLOW.assemble_cell. destruct (is_locally_owned c).
  - rewrite face_loop_spec. simpl.
    destruct (distribute_local_to_global _ _ _ _ _) as [m rhs]. simpl. auto.
  - rewrite app_nil_r. auto.
Qed.

Lemma cell_loop_frame cells : forall n (g : state),
  dof_handler (cell_loop n cells g) = dof_handler g /\
  constraints (cell_loop n cells g) = constraints g /\
  top_boundary_ids (cell_loop n cells g) = top_boundary_ids g /\
  locally_relevant_solution (cell_loop n cells g) = locally_relevant_solution g /\
  trace (cell_loop n cells g) = trace g ++ recharge_events n cells.
Proof.
  induction cells as [|c cells IH]; intros n g.
  - simpl. rewrite app_nil_r. auto.
  - cbn [GWFLOW.cell_loop GWFLOW.recharge_events].
    destruct (IH (S n) (assemble_cell n c g)) as (-> & -> & -> & -> & ->).
    destruct (assemble_cell_frame n c g) as (-> & -> & -> & -> & ->).
    rewrite <- app_assoc. auto.
Qed.

Lemma recharge_events_spec cells : forall n0 n j,
  ev_face_recharge n j ∈ recharge_events n0 cells <->
  exists c f, (n0 <= n)%nat /\ cells !! (n - n0)%nat = Some c /\
    is_locally_owned c = true /\ cell_faces c !! j = Some f /\
    at_boundary f = true /\ is_top_face f = true.
Proof.
  induction cells as [|c cells IH]; intros n0 n j.
  - simpl. split; [intros H; inversion H | intros (c & f & _ & H & _); discriminate].
  - cbn [GWFLOW.recharge_events]. rewrite elem_of_app, IH. split.
    + intros [Hj|(c' & f & Hle & Hc & Ho & P)].
      * destruct (is_locally_owned c) eqn:Ho; [|inversion Hj].
        apply list_elem_of_fmap in Hj. destruct Hj as (j' & E & Hj). inversion E; subst.
        apply top_faces_from_spec in Hj. destruct Hj as (f & _ & Hf & Hb & Ht).
        rewrite Nat.sub_0_r in Hf.
        exists c, f. rewrite Nat.sub_diag. auto 10.
      * exists c', f. replace (n - n0)%nat with (S (n - S n0)) by lia.
        split; [lia|]. auto.
    + intros (c' & f & Hle & Hc & Ho & Hf & Hb & Ht).
      destruct (decide (n = n0)) as [->|Hne].
      * left. rewrite Nat.sub_diag in Hc. simpl in Hc. simplify_eq. rewrite Ho.
        apply list_elem_of_fmap. exists j. split; [reflexivity|].
        apply top_faces_from_spec. exists f. rewrite Nat.sub_0_r.
        split; [lia|]. auto.
      * right. exists c', f. replace (n - n0)%nat with (S (n - S n0)) in Hc by lia.
        split; [lia|]. auto 10.
Qed.

Lemma and_then_Normal (f k : state -> completion * state) (g : state) :
  fst (f g) = Normal ->
  and_then SparseMatrix ConstraintMatrix f k g = k (snd (f g)).
Proof. unfold GWFLOW.and_then. destruct (f g) as [[|e] g']; simpl; [reflexivity|discriminate]. Qed.

Lemma recharge_events_only cells : forall n0 e,
  e ∈ recharge_events n0 cells -> exists n j, e = ev_face_recharge n j.
Proof.
  induction cells as [|c cells IH]; intros n0 e H.
  - inversion H.
  - cbn [GWFLOW.recharge_events] in H. apply elem_of_app in H. destruct H as [H|H].
    + destruct (is_locally_owned c); [|inversion H].
      apply list_elem_of_fmap in H. destruct H as (j & -> & _). eauto.
    + eapply IH; eauto.
Qed.

Lemma assemble_cell_top_boundary_ids ids n c (g : state) :
  assemble_cell n c (set_top_boundary_ids ids g) =
  set_top_boundary_ids ids (assemble_cell n c g).
Proof.
  unfold GWFLOW.assemble_cell. destruct (is_locally_owned c); [|reflexivity].
  destruct (GWFLOW.face_loop _ _ _ _ _ _ _ _ _ _ _ _) as [cell_rhs evs]. simpl.
  destruct (distribute_local_to_global _ _ _ _ _) as [m rhs]. reflexivity.
Qed.

Lemma cell_loop_top_boundary_ids ids cells : forall n (g : state),
  cell_loop n cells (set_top_boundary_ids ids g) =
  set_top_boundary_ids ids (cell_loop n cells g).
Proof.
  induction cells as [|c cells IH]; intros n g; [reflexivity|].
  cbn [GWFLOW.cell_loop]. rewrite assemble_cell_top_boundary_ids. apply IH.
Qed.

Lemma assemble_trace (g : state) :
  fst (assemble g) = Normal /\
  dof_handler (snd (assemble g)) = dof_handler g /\
  constraints (snd (assemble g)) = constraints g /\
  locally_relevant_solution (snd (assemble g)) = locally_relevant_solution g /\
  trace (snd (assemble g)) =
    trace g ++ [ev_assemble] ++ recharge_events 0 (active_cells (dof_handler g))
            ++ [ev_compress_matrix; ev_compress_rhs].
Proof.
  unfold GWFLOW.assemble. simpl.
  destruct (cell_loop_frame (active_cells (dof_handler g)) 0 (log _ _ [ev_assemble] g))
    as (-> & -> & _ & -> & ->).
  simpl. rewrite <- !app_assoc. simpl. auto.
Qed.

(** C3. [assemble] integrates the recharge exactly on the boundary faces of
    the locally owned cells whose boundary id is 5 when [dim] is 3, or 3 when
    [dim] is 2; the list [top_boundary_ids] that the caller gave to the
    constructor is carried along and never read. *)
Theorem assemble_recharge_faces (g : state) :
  trace (snd (assemble g)) =
    trace g ++ [ev_assemble] ++ recharge_events 0 (active_cells (dof_handler g))
            ++ [ev_compress_matrix; ev_compress_rhs] /\
  (forall n j,
     ev_face_recharge n j ∈ recharge_events 0 (active_cells (dof_handler g)) <->
     exists c f, active_cells (dof_handler g) !! n = Some c /\
       is_locally_owned c = true /\ cell_faces c !! j = Some f /\
       at_boundary f = true /\
       ((boundary_id f = 5%nat /\ dim = 3%nat) \/ (boundary_id f = 3%nat /\ dim = 2%nat))) /\
  (forall ids,
     assemble (set_top_boundary_ids ids g) =
     (Normal, set_top_boundary_ids ids (snd (assemble g)))).
Proof.
  split; [apply assemble_trace|]. split.
  - intros n j. rewrite recharge_events_spec. split.
    + intros (c & f & _ & Hc & Ho & Hf & Hb & Ht). rewrite Nat.sub_0_r in Hc.
      apply is_top_face_spec in Ht. eauto 10.
    + intros (c & f & Hc & Ho & Hf & Hb & Ht). apply is_top_face_spec in Ht.
      exists c, f. rewrite Nat.sub_0_r. split; [lia|]. auto.
  - intros ids. unfold GWFLOW.assemble.
    change (dof_handler (set_top_boundary_ids ids g)) with (dof_handler g).
    change (log SparseMatrix ConstraintMatrix [ev_assemble] (set_top_boundary_ids ids g))
      with (set_top_boundary_ids ids (log SparseMatrix ConstraintMatrix [ev_assemble] g)).
    rewrite cell_loop_top_boundary_ids. reflexivity.
Qed.

Lemma solve_eq (g : state) :
  solve g =
  match SolverCG_solve (solver_control_of g) (system_matrix g) (system_rhs g) with
  | Converged last_step x =>
      (Normal,
       set_solution _ _ (constraints_distribute (constraints g) x)
         (log _ _ [ev_solved_in last_step; ev_constraints_distribute]
            (log _ _ [ev_solver_solve (solver_control_of g)] g)))
  | NotConverged last_step last_residual =>
      (Thrown (NoConvergence last_step last_residual),
       log _ _ [ev_solver_solve (solver_control_of g)] g)
  end.
Proof. reflexivity. Qed.

(** C2. [solve] runs the CG solver with at most [n_dofs] steps and the
    absolute tolerance 1e-8.  When the solver converges, [solve] prints the
    number of steps, distributes the constraints and publishes the solution.
    When it does not, the exception [NoConvergence], which holds the last
    step and the last residual, leaves [solve]: after the call of the
    solver nothing more is done, so that the line "Solved in N iterations"
    is not written, the constraints are not distributed, the published
    solution stays as it was, and what the caller had put after [solve] is
    not run.  (The line "Solving system...", written before the solver is
    called, is no part of the trace.) *)
Theorem solve_outcome (g : state) :
  let ctl := solver_control_of g in
  max_steps ctl = n_dofs (dof_handler g) /\ tolerance ctl = 1e-8 /\
  match SolverCG_solve ctl (system_matrix g) (system_rhs g) with
  | Converged last_step x =>
      fst (solve g) = Normal /\
      trace (snd (solve g)) =
        trace g ++ [ev_solver_solve ctl; ev_solved_in last_step; ev_constraints_distribute] /\
      locally_relevant_solution (snd (solve g)) =
        constraints_distribute (constraints g) x
  | NotConverged last_step last_residual =>
      fst (solve g) = Thrown (NoConvergence last_step last_residual) /\
      trace (snd (solve g)) = trace g ++ [ev_solver_solve ctl] /\
      locally_relevant_solution (snd (solve g)) = locally_relevant_solution g /\
      forall next, and_then SparseMatrix ConstraintMatrix solve next g = solve g
  end.
Proof.
  split; [reflexivity|]. split; [reflexivity|].
  unfold GWFLOW.and_then. rewrite solve_eq.
  destruct (SolverCG_solve _ (system_matrix g) (system_rhs g)) as [n x|n res]; simpl.
  - rewrite <- app_assoc. auto.
  - auto.
Qed.

(** C4. [Simulate] calls, in this order, [setup_system],
    [wells.add_contributions], [assemble], which ends with the two
    [compress] calls, and [solve]; [output] follows when the solver has
    converged.  The right-hand side that [assemble] starts from is the zero
    vector to which the wells have added their part; the streams add
    nothing. *)
Theorem Simulate_order iter (g : state) :
  let dh := dof_handler g in
  let g_src := snd (wells_step (snd (setup_system g))) in
  let g_asm := snd (assemble g_src) in
  let ctl := solver_control_of g_asm in
  system_rhs g_src =
    wells_add_contributions (replicate (n_dofs dh) 0) dh (make_constraints dh) /\
  exists tail,
    trace (snd (Simulate iter g)) =
      trace g ++ [ev_setup_system; ev_wells_add_contributions; ev_assemble]
        ++ recharge_events 0 (active_cells dh)
        ++ [ev_compress_matrix; ev_compress_rhs; ev_solver_solve ctl] ++ tail /\
    match SolverCG_solve ctl (system_matrix g_asm) (system_rhs g_asm) with
    | Converged last_step x =>
        fst (Simulate iter g) = Normal /\
        tail = [ev_solved_in last_step; ev_constraints_distribute; ev_output iter]
    | NotConverged last_step last_residual =>
        fst (Simulate iter g) = Thrown (NoConvergence last_step last_residual) /\
        tail = []
    end /\
    ev_streams_add_contributions ∉
      [ev_setup_system; ev_wells_add_contributions; ev_assemble]
        ++ recharge_events 0 (active_cells dh)
        ++ [ev_compress_matrix; ev_compress_rhs; ev_solver_solve ctl] ++ tail.
Proof.
  intros dh g_src g_asm ctl. split; [reflexivity|].
  destruct (assemble_trace g_src) as (Hn & Hdh & Hc & Hsol & Htr).
  assert (Hsim : Simulate iter g =
            and_then SparseMatrix ConstraintMatrix solve (output _ _ iter) g_asm).
  { unfold GWFLOW.Simulate.
    rewrite (and_then_Normal setup_system) by reflexivity.
    rewrite (and_then_Normal wells_step) by reflexivity.
    rewrite (and_then_Normal assemble) by exact Hn. reflexivity. }
  assert (Hne : forall tail,
    Forall (fun e => e <> ev_streams_add_contributions) tail ->
    ev_streams_add_contributions ∉
      [ev_setup_system; ev_wells_add_contributions; ev_assemble]
        ++ recharge_events 0 (active_cells dh)
        ++ [ev_compress_matrix; ev_compress_rhs; ev_solver_solve ctl] ++ tail).
  { intros tail Ht H. rewrite !elem_of_app in H.
    destruct H as [H|[H|[H|H]]].
    - rewrite !elem_of_cons in H. destruct H as [H|[H|[H|H]]]; try discriminate. inversion H.
    - apply recharge_events_only in H. destruct H as (n & j & H). discriminate.
    - rewrite !elem_of_cons in H. destruct H as [H|[H|[H|H]]]; try discriminate. inversion H.
    - rewrite Forall_forall in Ht. apply Ht in H. congruence. }
  rewrite Hsim. unfold GWFLOW.and_then. rewrite solve_eq. subst ctl.
  destruct (SolverCG_solve (solver_control_of g_asm) (system_matrix g_asm)
              (system_rhs g_asm)) as [n x|n res].
  - exists [ev_solved_in n; ev_constraints_distribute; ev_output iter].
    split; [|split; [split; reflexivity|]].
    + simpl.
      destruct (cell_loop_frame (active_cells (dof_handler g)) 0
                  (log _ _ [ev_assemble] g_src)) as (_ & _ & _ & _ & ->).
      simpl. rewrite <- !app_assoc. reflexivity.
    + apply Hne. repeat constructor; discriminate.
  - exists []. split; [|split; [split; reflexivity|]].
    + simpl.
      destruct (cell_loop_frame (active_cells (dof_handler g)) 0
                  (log _ _ [ev_assemble] g_src)) as (_ & _ & _ & _ & ->).
      simpl. rewrite <- !app_assoc. reflexivity.
    + apply Hne. constructor.
Qed.

End FlowFacts.

(** C3 as worded does not hold: the recharge is not integrated on the faces
    named by the caller.  With 7 given as the top boundary in 3-D, the face
    of id 7 is not integrated, and the face of id 5 is. *)
Lemma assemble_not_on_caller_ids :
  top_boundary_ids Examples.flow7 = [7%Z] /\
  trace (snd (Examples.run_assemble Examples.flow7)) =
    [ev_assemble; ev_face_recharge 0 0; ev_compress_matrix; ev_compress_rhs] /\
  ~ (forall j f, cell_faces Examples.one_cell !! j = Some f ->
       (ev_face_recharge 0 j ∈ trace (snd (Examples.run_assemble Examples.flow7)) <->
        Z.of_nat (boundary_id f) ∈ top_boundary_ids Examples.flow7)).
Proof.
  assert (E : trace (snd (Examples.run_assemble Examples.flow7)) =
    [ev_assemble; ev_face_recharge 0 0; ev_compress_matrix; ev_compress_rhs])
    by reflexivity.
  split; [reflexivity|]. split; [exact E|].
  intros H. specialize (H 1%nat Examples.face7 eq_refl). destruct H as [_ H].
  assert (Hin : Z.of_nat (boundary_id Examples.face7) ∈ top_boundary_ids Examples.flow7)
    by (apply list_elem_of_singleton; reflexivity).
  apply H in Hin. rewrite E, !elem_of_cons in Hin.
  destruct Hin as [Hin|[Hin|[Hin|[Hin|Hin]]]]; try discriminate. inversion Hin.
Qed.

(** C2 as worded does not hold: a solver that does not converge does not
    let the run go on.  [solve] ends with the exception, and [Simulate]
    stops there, without writing the output. *)
Lemma solve_not_converged_throws :
  fst (Examples.run_solve Examples.stalling Examples.flow7)
    = Thrown (NoConvergence 3 1) /\
  fst (Examples.run_Simulate Examples.stalling 0 Examples.flow7)
    = Thrown (NoConvergence 3 1) /\
  trace (snd (Examples.run_Simulate Examples.stalling 0 Examples.flow7)) =
    [ev_setup_system; ev_wells_add_contributions; ev_assemble; ev_face_recharge 0 0;
     ev_compress_matrix; ev_compress_rhs;
     ev_solver_solve {| max_steps := 2; tolerance := 1e-8 |}] /\
  ev_output 0 ∉ trace (snd (Examples.run_Simulate Examples.stalling 0 Examples.flow7)).
Proof.
  assert (E : trace (snd (Examples.run_Simulate Examples.stalling 0 Examples.flow7)) =
    [ev_setup_system; ev_wells_add_contributions; ev_assemble; ev_face_recharge 0 0;
     ev_compress_matrix; ev_compress_rhs;
     ev_solver_solve {| max_steps := 2; tolerance := 1e-8 |}]) by reflexivity.
  split; [reflexivity|]. split; [reflexivity|]. split; [exact E|].
  rewrite E. intros H. apply list_elem_of_In in H. simpl in H.
  intuition discriminate.
Qed.

(** C4 as worded does not hold: a complete run, up to the output, injects
    the wells and never the streams. *)
Lemma Simulate_without_streams :
  fst (Examples.run_Simulate Examples.converging 0 Examples.flow7) = Normal /\
  trace (snd (Examples.run_Simulate Examples.converging 0 Examples.flow7)) =
    [ev_setup_system; ev_wells_add_contributions; ev_assemble; ev_face_recharge 0 0;
     ev_compress_matrix; ev_compress_rhs;
     ev_solver_solve {| max_steps := 2; tolerance := 1e-8 |};
     ev_solved_in 1; ev_constraints_distribute; ev_output 0] /\
  ev_streams_add_contributions ∉
    trace (snd (Examples.run_Simulate Examples.converging 0 Examples.flow7)).
Proof.
  assert (E : trace (snd (Examples.run_Simulate Examples.converging 0 Examples.flow7)) =
    [ev_setup_system; ev_wells_add_contributions; ev_assemble; ev_face_recharge 0 0;
     ev_compress_matrix; ev_compress_rhs;
     ev_solver_solve {| max_steps := 2; tolerance := 1e-8 |};
     ev_solved_in 1; ev_constraints_distribute; ev_output 0]) by reflexivity.
  split; [reflexivity|]. split; [exact E|].
  rewrite E. intros H. apply list_elem_of_In in H. simpl in H.
  intuition discriminate.
Qed.

(** * Further properties of the stream catalog *)

Ltac open_read_segment H :=
  apply read_segment_Ok in H;
  destruct H as (a & b & q & w & xx & yy & bb & Ho & Hbb & Lx & Ly &
                 EA & EB & EQ & EL & EW & EXo & EYo & EXmin & EXmax & EYmin & EYmax &
                 Eids & Etri & EN & Eriver & Etree & Erect).

Section CatalogExtras.

Variable sqrt : double -> double.
Variable line_line_intersection :
  double -> double -> double -> double -> option (double * double).

Local Abbreviation create_river_outline :=
  (Streams.create_river_outline sqrt line_line_intersection).
Local Abbreviation read_segment := (Streams.read_segment sqrt line_line_intersection).
Local Abbreviation read_segments := (Streams.read_segments sqrt line_line_intersection).
Local Abbreviation read_streams := (Streams.read_streams sqrt line_line_intersection).
Local Abbreviation distance := (Streams.distance sqrt).
Local Abbreviation segment_measured :=
  (Streams.segment_measured sqrt line_line_intersection).

(** X1. Whatever the end points and the width, the vectors [xx] and [yy]
    that [create_river_outline] fills have the same size, and at most four
    entries. *)
Theorem create_river_outline_sizes (a b : Point2) (w : double) :
  length (fst (create_river_outline a b w)) = length (snd (create_river_outline a b w)) /\
  (length (fst (create_river_outline a b w)) <= 4)%nat.
Proof. apply create_river_outline_length. Qed.

(** X2. For a segment that is not short and is aligned with an axis (one of
    the two coordinate differences is below 0.1), the outline has its four
    vertices, the end points shifted by the width across the segment; neither
    [sqrt] nor [line_line_intersection] is used. *)
Theorem create_river_outline_axis_aligned (a b : Point2) (w : double) :
  ~ (Qabs (p2x a - p2x b) < 0.1 /\ Qabs (p2y a - p2y b) < 0.1) ->
  Qabs (p2x a - p2x b) < 0.1 \/ Qabs (p2y a - p2y b) < 0.1 ->
  create_river_outline a b w =
    if dlt (Qabs (p2x a - p2x b)) 0.1
    then ([p2x a - w; p2x a + w; p2x b - w; p2x b + w], [p2y a; p2y a; p2y b; p2y b])
    else ([p2x a; p2x a; p2x b; p2x b], [p2y a - w; p2y a + w; p2y b - w; p2y b + w]).
Proof.
  intros Hlong Haligned. unfold Streams.create_river_outline.
  destruct (dlt (Qabs (p2x a - p2x b)) 0.1) eqn:Ex,
           (dlt (Qabs (p2y a - p2y b)) 0.1) eqn:Ey; simpl; try reflexivity.
  - exfalso. apply Hlong. split; apply dlt_spec; assumption.
  - exfalso. destruct Haligned as [H|H]; apply dlt_spec in H; congruence.
Qed.

Lemma short_outline (a b : Point2) (w : double) :
  Qabs (p2x a - p2x b) < 0.1 -> Qabs (p2y a - p2y b) < 0.1 ->
  create_river_outline a b w = ([], []).
Proof.
  intros Hx Hy. unfold Streams.create_river_outline.
  apply dlt_spec in Hx, Hy. rewrite Hx, Hy. reflexivity.
Qed.

Lemma read_segment_short i ax ay bx by_ q w rest v s :
  Qabs (ax - bx) < 0.1 -> Qabs (ay - by_) < 0.1 ->
  read_segment i (ax :: ay :: bx :: by_ :: q :: w :: rest) v s = OutOfRange.
Proof.
  intros Hx Hy. apply read_segment_needs_four_vertices.
  rewrite short_outline by assumption. simpl. lia.
Qed.

Lemma same_point_short (x : double) : Qabs (x - x) < 0.1.
Proof.
  assert (E : x - x == 0) by ring. rewrite E. reflexivity.
Qed.

(** At the end of the file the locals keep their values: both end points
    are the last point read. *)
Lemma read_segment_empty_buffer i v s : read_segment i [] v s = OutOfRange.
Proof.
  unfold Streams.read_segment. cbn [extract].
  rewrite (short_outline (mkPoint2 (lx v) (ly v)) (mkPoint2 (lx v) (ly v)) (lw v))
    by apply same_point_short.
  reflexivity.
Qed.

Lemma getline_drop (lines : list (list double)) k line :
  lines !! k = Some line -> fst (getline (drop k lines)) = line.
Proof.
  intros H. rewrite <- (Nat.add_0_r k), <- lookup_drop in H.
  destruct (drop k lines); simpl in *; congruence.
Qed.

(** A line on which the pass fails makes the whole loop fail, whatever
    happened on the lines before. *)
Lemma read_segments_bad_line n : forall i k lines v s,
  (k < n)%nat ->
  (forall i v s, read_segment i (fst (getline (drop k lines))) v s = OutOfRange) ->
  read_segments n i lines v s = OutOfRange.
Proof.
  induction n as [|n IH]; intros i k lines v s Hk Hbad; [lia|].
  cbn [Streams.read_segments]. destruct lines as [|l rest]; cbn [getline].
  - rewrite read_segment_empty_buffer. reflexivity.
  - destruct k as [|k].
    + simpl in Hbad. rewrite Hbad. reflexivity.
    + destruct (read_segment i l v s) as [[v' s']|]; [|reflexivity].
      simpl. apply (IH _ k); [lia|]. exact Hbad.
Qed.

(** X3. A file one of whose first [N_seg] records has end points closer than
    0.1 in both coordinates is not loaded: [read_streams] leaves the outline
    vectors of that record, or of an earlier one. *)
Theorem read_streams_short_record_out_of_range uninit f s n k ax ay bx by_ q w rest :
  file_header f = Some n -> (k < n)%nat ->
  file_lines f !! k = Some (ax :: ay :: bx :: by_ :: q :: w :: rest) ->
  Qabs (ax - bx) < 0.1 -> Qabs (ay - by_) < 0.1 ->
  read_streams uninit (Some f) s = OutOfRange.
Proof.
  intros Hh Hk Hline Hx Hy. unfold Streams.read_streams. rewrite Hh.
  rewrite (read_segments_bad_line n 0 k); [reflexivity | exact Hk |].
  intros i v s0. rewrite (getline_drop _ _ _ Hline). apply read_segment_short; assumption.
Qed.

(** X4. A file that announces more segments than it has lines is not loaded
    either: on the missing line no number is extracted, both end points are
    the last point read, and the empty outline is indexed. *)
Theorem read_streams_too_few_lines_out_of_range uninit f s n :
  file_header f = Some n -> (length (file_lines f) < n)%nat ->
  read_streams uninit (Some f) s = OutOfRange.
Proof.
  intros Hh Hn. unfold Streams.read_streams. rewrite Hh.
  rewrite (read_segments_bad_line n 0 (length (file_lines f))); [reflexivity | exact Hn |].
  intros i v s0. rewrite drop_all. apply read_segment_empty_buffer.
Qed.

(** What a completed pass has appended, with the vertices it read. *)
Lemma read_segment_triangles i buffer v s v' s' :
  read_segment i buffer v s = Ok (v', s') ->
  exists x0 x1 x2 x3 y0 y1 y2 y3,
    st_Xoutline s' = <[i:=[x0; x1; x2; x3]]> (st_Xoutline s) /\
    st_Youtline s' = <[i:=[y0; y1; y2; y3]]> (st_Youtline s) /\
    stream_triangles s' = stream_triangles s ++
      [mk_Triangle (ine_Point3 x0 y0 0) (ine_Point3 x1 y1 0) (ine_Point3 x2 y2 0);
       mk_Triangle (ine_Point3 x1 y1 0) (ine_Point3 x3 y3 0) (ine_Point3 x2 y2 0)].
Proof.
  unfold Streams.read_segment. intros H.
  repeat match type of H with
  | context [extract ?x ?l] => destruct (extract x l) as [? ?]
  end.
  match type of H with
  | context [Streams.create_river_outline ?f ?g ?a ?b ?w] =>
      pose proof (create_river_outline_length f g a b w) as [Hl L4];
      destruct (Streams.create_river_outline f g a b w) as [xx yy]
  end.
  simpl in Hl, L4.
  bind_inv H as bb Hbb.
  destruct xx as [|x0 [|x1 [|x2 [|x3 [|? ?]]]]]; simpl in L4; try lia;
    try (exfalso; revert H; unfold at_; simpl; clear;
         repeat (destruct (yy !! _); simpl); discriminate).
  destruct yy as [|y0 [|y1 [|y2 [|y3 [|? ?]]]]]; try discriminate.
  simpl in H. inversion H; subst; clear H. simpl.
  exists x0, x1, x2, x3, y0, y1, y2, y3. unfold push_back.
  rewrite <- app_assoc. auto.
Qed.

Lemma read_segments_invariant (P : Streams -> nat -> Prop) :
  (forall i buffer v s v' s' n,
     read_segment i buffer v s = Ok (v', s') -> sized n s -> (i < n)%nat -> P s' i) ->
  (forall i k buffer v s v' s',
     read_segment i buffer v s = Ok (v', s') -> k <> i -> P s k -> P s' k) ->
  forall n i lines v s s',
    read_segments n i lines v s = Ok s' ->
    sized (i + n) s -> (forall k, (k < i)%nat -> P s k) ->
    sized (i + n) s' /\ forall k, (k < i + n)%nat -> P s' k.
Proof.
  intros Hself Hother. induction n as [|n IH]; intros i lines v s s' H Hs Hdone.
  - inversion H; subst. split; [exact Hs|]. intros k Hk. apply Hdone. lia.
  - cbn [Streams.read_segments] in H. destruct (getline lines) as [buffer rest].
    bind_inv H as r Hr. destruct r as [v1 s1]. simpl in H.
    replace (i + S n)%nat with (S i + n)%nat in * by lia.
    apply IH in H; [exact H | eapply read_segment_sized; eauto |].
    intros k Hk. destruct (decide (k = i)) as [->|Hne].
    + eapply Hself; eauto. lia.
    + eapply Hother; eauto. apply Hdone. lia.
Qed.

Lemma read_segments_N_seg n : forall i lines v s s',
  read_segments n i lines v s = Ok s' -> N_seg s' = N_seg s.
Proof.
  induction n as [|n IH]; intros i lines v s s' H.
  - inversion H; reflexivity.
  - cbn [Streams.read_segments] in H. destruct (getline lines) as [buffer rest].
    bind_inv H as r Hr. destruct r as [v1 s1]. simpl in H.
    apply IH in H. open_read_segment Hr. congruence.
Qed.

(** X5. After a completed [read_streams] the eleven per-segment vectors have
    [N_seg] entries, [N_seg] being what the extraction from the first line
    has stored (the old [N_seg] when the first line is empty and nothing is
    stored); every stored outline has exactly four vertices, and every
    bounding box has [Xmin <= Xmax] and [Ymin <= Ymax]. *)
Theorem read_streams_sizes_and_outlines uninit f s s' :
  read_streams uninit (Some f) s = Ok (true, s') ->
  N_seg s' = default (N_seg s) (file_header f) /\
  sized (N_seg s') s' /\
  forall i, (i < N_seg s')%nat ->
    exists xx yy xmin xmax ymin ymax,
      st_Xoutline s' !! i = Some xx /\ st_Youtline s' !! i = Some yy /\
      length xx = 4%nat /\ length yy = 4%nat /\
      st_Xmin s' !! i = Some xmin /\ st_Xmax s' !! i = Some xmax /\
      st_Ymin s' !! i = Some ymin /\ st_Ymax s' !! i = Some ymax /\
      xmin <= xmax /\ ymin <= ymax.
Proof.
  unfold Streams.read_streams. intros H. bind_inv H as s1 H1.
  inversion H; subst; clear H.
  set (n := match file_header f with Some n => n | None => N_seg s end) in *.
  assert (HN : N_seg s1 = n) by (apply read_segments_N_seg in H1; exact H1).
  assert (Hd : default (N_seg s) (file_header f) = n) by (destruct (file_header f); reflexivity).
  pose proof (read_segments_measured sqrt line_line_intersection _ _ _ _ _ _ H1
                (resize_all_sized n s) ltac:(intros; lia)) as [_ Hm].
  apply (read_segments_invariant
           (fun s k => exists xx yy, st_Xoutline s !! k = Some xx /\
              st_Youtline s !! k = Some yy /\ length xx = 4%nat /\ length yy = 4%nat))
    in H1; [| | | apply resize_all_sized | intros; lia].
  - destruct H1 as [Hs H4]. simpl in Hs, H4. simpl. rewrite HN, Hd.
    split; [reflexivity|]. split; [exact Hs|].
    intros i Hi. destruct (H4 i Hi) as (xx & yy & Hxx & Hyy & Lx & Ly).
    destruct (Hm i Hi) as (a & b & w & xx' & yy' & xmin & xmax & ymin & ymax &
      _ & _ & _ & Hxx' & Hyy' & Hxmin & Hxmax & Hymin & Hymax & _ & _ & _ & _ & Hin).
    assert (xx' = xx) by congruence. assert (yy' = yy) by congruence. subst xx' yy'.
    exists xx, yy, xmin, xmax, ymin, ymax.
    destruct xx as [|x0 ?]; [discriminate|]. destruct yy as [|y0 ?]; [discriminate|].
    destruct (Hin 0%nat x0 y0 eq_refl eq_refl) as (B1 & B2 & B3 & B4).
    repeat (split; [assumption|]).
    split; eapply Qle_trans; eauto.
  - intros i buffer v s0 v' s0' m Hr (_ & _ & _ & _ & _ & LXo & LYo & _) Hi.
    open_read_segment Hr. rewrite EXo, EYo.
    exists xx, yy. rewrite !list_lookup_insert_eq by lia. auto.
  - intros i k buffer v s0 v' s0' Hr Hk P. open_read_segment Hr.
    rewrite EXo, EYo, !list_lookup_insert_ne by congruence. exact P.
Qed.

(** The triangles of the segments read so far sit where they were pushed. *)
Lemma read_segments_triangles L0 n : forall i lines v s s',
  read_segments n i lines v s = Ok s' ->
  sized (i + n) s ->
  length (stream_triangles s) = (L0 + 2 * i)%nat ->
  (forall k, (k < i)%nat -> triangles_of_outline L0 s k) ->
  forall k, (k < i + n)%nat -> triangles_of_outline L0 s' k.
Proof.
  induction n as [|n IH]; intros i lines v s s' H Hs HL Hdone.
  - inversion H; subst. intros k Hk. apply Hdone. lia.
  - cbn [Streams.read_segments] in H. destruct (getline lines) as [buffer rest].
    bind_inv H as r Hr. destruct r as [v1 s1]. simpl in H.
    replace (i + S n)%nat with (S i + n)%nat in * by lia.
    assert (Hs1 : sized (S i + n) s1) by (eapply read_segment_sized; eauto).
    destruct (read_segment_triangles _ _ _ _ _ _ Hr)
      as (x0 & x1 & x2 & x3 & y0 & y1 & y2 & y3 & EX & EY & ET).
    destruct Hs as (_ & _ & _ & _ & _ & LXo & LYo & _).
    apply (IH _ _ _ _ _ H Hs1).
    + rewrite ET, length_app. simpl. lia.
    + intros k Hk. unfold Streams.triangles_of_outline.
      destruct (decide (k = i)) as [->|Hne].
      * exists x0, x1, x2, x3, y0, y1, y2, y3. rewrite EX, EY, ET.
        rewrite !list_lookup_insert_eq by lia.
        split; [reflexivity|]. split; [reflexivity|]. split.
        -- rewrite lookup_app_r by lia.
           replace (L0 + 2 * i - length (stream_triangles s))%nat with 0%nat by lia.
           reflexivity.
        -- rewrite lookup_app_r by lia.
           replace (L0 + 2 * i + 1 - length (stream_triangles s))%nat with 1%nat by lia.
           reflexivity.
      * destruct (Hdone k ltac:(lia))
          as (a0 & a1 & a2 & a3 & b0 & b1 & b2 & b3 & HX & HY & T1 & T2).
        exists a0, a1, a2, a3, b0, b1, b2, b3. rewrite EX, EY, ET.
        rewrite !list_lookup_insert_ne by congruence.
        split; [exact HX|]. split; [exact HY|].
        split; (rewrite lookup_app_l; [assumption | lia]).
Qed.

(** X6. After a completed [read_streams], the two triangles pushed for
    segment [i] are the triangles on the vertices (0,1,2) and (1,3,2) of its
    stored outline, at height 0; they follow the triangles that the object
    held before. *)
Theorem read_streams_triangles_of_outlines uninit f s s' :
  read_streams uninit (Some f) s = Ok (true, s') ->
  forall i, (i < N_seg s')%nat ->
    triangles_of_outline (length (stream_triangles s)) s' i.
Proof.
  unfold Streams.read_streams. intros H. bind_inv H as s1 H1.
  inversion H; subst; clear H. intros i Hi. simpl in Hi.
  assert (EN : N_seg s1 = match file_header f with Some n => n | None => N_seg s end)
    by (apply read_segments_N_seg in H1; exact H1).
  apply (read_segments_triangles (length (stream_triangles s))) with (k := i) in H1.
  - exact H1.
  - apply resize_all_sized.
  - simpl. lia.
  - intros k Hk. lia.
  - simpl. rewrite <- EN. exact Hi.
Qed.

(** What the loop appends, whatever the object held. *)
Lemma read_segments_appends n : forall i lines v s s',
  read_segments n i lines v s = Ok s' ->
  stream_ids s' = stream_ids s ++ tags i n /\
  (exists new, stream_triangles s' = stream_triangles s ++ new /\
     length new = (2 * n)%nat) /\
  stream_tree s' = stream_tree s /\ tria s' = tria s.
Proof.
  induction n as [|n IH]; intros i lines v s s' H.
  - inversion H; subst. rewrite app_nil_r. repeat split. exists []. rewrite app_nil_r. auto.
  - cbn [Streams.read_segments] in H. destruct (getline lines) as [buffer rest].
    bind_inv H as r Hr. destruct r as [v1 s1]. simpl in H.
    apply IH in H. destruct H as (Eids' & (new & ET' & Ln) & Etree' & Etria').
    destruct (read_segment_triangles _ _ _ _ _ _ Hr)
      as (x0 & x1 & x2 & x3 & y0 & y1 & y2 & y3 & _ & _ & ET).
    assert (Etria : tria s1 = tria s).
    { revert Hr. unfold Streams.read_segment. intros Hr.
      repeat match type of Hr with
      | context [extract ?x ?l] => destruct (extract x l) as [? ?]
      end.
      destruct (Streams.create_river_outline _ _ _ _ _) as [xx yy].
      bind_inv Hr as bb Hbb. do 8 inv_bind Hr. inversion Hr; reflexivity. }
    open_read_segment Hr.
    rewrite Eids', ET', Etree', Etria', Eids, ET, Etree, Etria, <- !app_assoc.
    split; [reflexivity|]. split; [|auto].
    eexists. split; [reflexivity|]. rewrite length_app, Ln. simpl. lia.
Qed.

(** X7. A completed [read_streams] appends: the ids [0, 0, 1, 1, ...] and
    two triangles per segment follow what [stream_ids] and
    [stream_triangles] held, and the tree receives all of
    [stream_triangles], old entries included, after what it held.  It
    leaves [river_outline] and both scratch cells as they were. *)
Theorem read_streams_appends uninit f s s' :
  read_streams uninit (Some f) s = Ok (true, s') ->
  stream_ids s' = stream_ids s ++ tags 0 (N_seg s') /\
  (exists new, stream_triangles s' = stream_triangles s ++ new /\
     length new = (2 * N_seg s')%nat) /\
  stream_tree s' = stream_tree s ++ stream_triangles s' /\
  river_outline s' = river_outline s /\ tria s' = tria s /\
  river_rect s' = river_rect s.
Proof.
  unfold Streams.read_streams. intros H. bind_inv H as s1 H1.
  inversion H; subst; clear H. simpl.
  pose proof (read_segments_N_seg _ _ _ _ _ _ H1) as EN. simpl in EN.
  pose proof (read_segments_river_outline sqrt line_line_intersection _ _ _ _ _ _ H1)
    as [Eriver Erect].
  apply read_segments_appends in H1. destruct H1 as (Eids & Hnew & Etree & Etria).
  simpl in *. rewrite EN, Eids, Etree, Eriver, Erect, Etria. auto 10.
Qed.

Lemma bbox_step_choice (bb : bbox) (x y : double) :
  (bb_Xmin (bbox_step bb x y) = bb_Xmin bb \/ bb_Xmin (bbox_step bb x y) = x) /\
  (bb_Xmax (bbox_step bb x y) = bb_Xmax bb \/ bb_Xmax (bbox_step bb x y) = x) /\
  (bb_Ymin (bbox_step bb x y) = bb_Ymin bb \/ bb_Ymin (bbox_step bb x y) = y) /\
  (bb_Ymax (bbox_step bb x y) = bb_Ymax bb \/ bb_Ymax (bbox_step bb x y) = y).
Proof.
  simpl.
  destruct (dlt x (bb_Xmin bb)), (dlt (bb_Xmax bb) x),
           (dlt y (bb_Ymin bb)), (dlt (bb_Ymax bb) y); auto.
Qed.

(** Each bound that the loop over [j] leaves is the bound it started from or
    a coordinate it has visited. *)
Lemma bbox_loop_choice (xs : list double) : forall j yy bb bb',
  bbox_loop xs j yy bb = Ok bb' ->
  (bb_Xmin bb' = bb_Xmin bb \/ bb_Xmin bb' ∈ xs) /\
  (bb_Xmax bb' = bb_Xmax bb \/ bb_Xmax bb' ∈ xs) /\
  (bb_Ymin bb' = bb_Ymin bb \/ bb_Ymin bb' ∈ yy) /\
  (bb_Ymax bb' = bb_Ymax bb \/ bb_Ymax bb' ∈ yy).
Proof.
  induction xs as [|x0 xs IH]; intros j yy bb bb' H.
  - inversion H; subst. auto.
  - cbn [bbox_loop] in H. bind_inv H as y Hy. apply at_Ok in Hy.
    apply list_elem_of_lookup_2 in Hy.
    destruct (IH _ _ _ _ H) as (I1 & I2 & I3 & I4).
    destruct (bbox_step_choice bb x0 y) as (S1 & S2 & S3 & S4).
    repeat split.
    + destruct I1 as [->|I1]; [destruct S1 as [->| ->]; [auto | right; left] | right; right; exact I1].
    + destruct I2 as [->|I2]; [destruct S2 as [->| ->]; [auto | right; left] | right; right; exact I2].
    + destruct I3 as [->|I3]; [destruct S3 as [->| ->]; auto | auto].
    + destruct I4 as [->|I4]; [destruct S4 as [->| ->]; auto | auto].
Qed.

(** X8. For an outline that is not empty and whose coordinates lie strictly
    between -10^8 and 10^8, the loop over [j] leaves the exact bounding box:
    each of [Xmin], [Xmax], [Ymin], [Ymax] is a coordinate of a vertex, and
    every vertex lies between them. *)
Theorem bbox_loop_tight (xs yy : list double) (bb : bbox) :
  bbox_loop xs 0 yy bbox_start = Ok bb ->
  xs <> [] -> length yy = length xs ->
  Forall (fun x => -100000000 < x /\ x < 100000000) xs ->
  Forall (fun y => -100000000 < y /\ y < 100000000) yy ->
  (bb_Xmin bb ∈ xs /\ bb_Xmax bb ∈ xs /\ bb_Ymin bb ∈ yy /\ bb_Ymax bb ∈ yy) /\
  forall j (x y : double), xs !! j = Some x -> yy !! j = Some y ->
    bb_Xmin bb <= x /\ x <= bb_Xmax bb /\ bb_Ymin bb <= y /\ y <= bb_Ymax bb.
Proof.
  intros H Hne Hlen Hxs Hys.
  destruct (bbox_loop_spec xs 0 yy bbox_start bb H) as [_ Hin].
  split; [|exact Hin].
  destruct xs as [|x0 xs]; [congruence|]. destruct yy as [|y0 yy]; [discriminate|].
  destruct (Hin 0%nat x0 y0 eq_refl eq_refl) as (B1 & B2 & B3 & B4).
  inversion Hxs as [|? ? [X1 X2] _]; subst. inversion Hys as [|? ? [Y1 Y2] _]; subst.
  destruct (bbox_loop_choice _ _ _ _ _ H) as (C1 & C2 & C3 & C4). simpl in C1, C2, C3, C4.
  repeat split.
  - destruct C1 as [E|C1]; [|exact C1]. rewrite E in B1.
    exfalso. exact (Qlt_not_le _ _ X2 B1).
  - destruct C2 as [E|C2]; [|exact C2]. rewrite E in B2.
    exfalso. exact (Qlt_not_le _ _ X1 B2).
  - destruct C3 as [E|C3]; [|exact C3]. rewrite E in B3.
    exfalso. exact (Qlt_not_le _ _ Y2 B3).
  - destruct C4 as [E|C4]; [|exact C4]. rewrite E in B4.
    exfalso. exact (Qlt_not_le _ _ Y1 B4).
Qed.

(** X9. The starting values 10^8 and -10^8 are not replaced by coordinates
    beyond them: when every x is at least 10^8, [Xmin] stays 10^8, and when
    every x is at most -10^8, [Xmax] stays -10^8 (likewise for y), so that
    the box is then larger than the outline. *)
Theorem bbox_loop_sentinel (xs : list double) : forall j yy bb bb',
  bbox_loop xs j yy bb = Ok bb' ->
  (Forall (fun x => bb_Xmin bb <= x) xs -> bb_Xmin bb' = bb_Xmin bb) /\
  (Forall (fun x => x <= bb_Xmax bb) xs -> bb_Xmax bb' = bb_Xmax bb) /\
  (Forall (fun y => bb_Ymin bb <= y) yy -> bb_Ymin bb' = bb_Ymin bb) /\
  (Forall (fun y => y <= bb_Ymax bb) yy -> bb_Ymax bb' = bb_Ymax bb).
Proof.
  induction xs as [|x0 xs IH]; intros j yy bb bb' H.
  - inversion H; subst. auto.
  - cbn [bbox_loop] in H. bind_inv H as y Hy. apply at_Ok in Hy.
    apply list_elem_of_lookup_2 in Hy.
    destruct (IH _ _ _ _ H) as (I1 & I2 & I3 & I4). clear IH H.
    repeat split; intros HF.
    + inversion HF as [|? ? H0 HF']; subst. apply dlt_false in H0.
      assert (E : bb_Xmin (bbox_step bb x0 y) = bb_Xmin bb) by (simpl; rewrite H0; reflexivity).
      rewrite <- E. apply I1. rewrite E. exact HF'.
    + inversion HF as [|? ? H0 HF']; subst. apply dlt_false in H0.
      assert (E : bb_Xmax (bbox_step bb x0 y) = bb_Xmax bb) by (simpl; rewrite H0; reflexivity).
      rewrite <- E. apply I2. rewrite E. exact HF'.
    + rewrite Forall_forall in HF. pose proof (HF y Hy) as H0. apply dlt_false in H0.
      assert (E : bb_Ymin (bbox_step bb x0 y) = bb_Ymin bb) by (simpl; rewrite H0; reflexivity).
      rewrite <- E. apply I3. rewrite E. apply Forall_forall. exact HF.
    + rewrite Forall_forall in HF. pose proof (HF y Hy) as H0. apply dlt_false in H0.
      assert (E : bb_Ymax (bbox_step bb x0 y) = bb_Ymax bb) by (simpl; rewrite H0; reflexivity).
      rewrite <- E. apply I4. rewrite E. apply Forall_forall. exact HF.
Qed.

End CatalogExtras.

Lemma read_streams_sizes_and_outlines_witness :
  N_seg Examples.horizontal_catalog = 1%nat /\
  Streams.sized 1 Examples.horizontal_catalog /\
  forall i, (i < 1)%nat ->
    exists xx yy xmin xmax ymin ymax,
      st_Xoutline Examples.horizontal_catalog !! i = Some xx /\
      st_Youtline Examples.horizontal_catalog !! i = Some yy /\
      length xx = 4%nat /\ length yy = 4%nat /\
      st_Xmin Examples.horizontal_catalog !! i = Some xmin /\
      st_Xmax Examples.horizontal_catalog !! i = Some xmax /\
      st_Ymin Examples.horizontal_catalog !! i = Some ymin /\
      st_Ymax Examples.horizontal_catalog !! i = Some ymax /\
      xmin <= xmax /\ ymin <= ymax.
Proof.
  apply (read_streams_sizes_and_outlines Examples.sqrt_id Examples.meet_lines
           Examples.zero_locals Examples.horizontal_file Streams_init
           Examples.horizontal_catalog).
  reflexivity.
Defined.

Lemma read_streams_triangles_of_outlines_witness :
  Streams.triangles_of_outline 0 Examples.horizontal_catalog 0.
Proof.
  apply (read_streams_triangles_of_outlines Examples.sqrt_id Examples.meet_lines
           Examples.zero_locals Examples.horizontal_file Streams_init
           Examples.horizontal_catalog).
  - reflexivity.
  - simpl. lia.
Defined.

Lemma read_streams_appends_witness :
  stream_ids Examples.reloaded_catalog = [0%nat; 0%nat] ++ tags 0 1 /\
  (exists new,
     stream_triangles Examples.reloaded_catalog =
       stream_triangles Examples.horizontal_catalog ++ new /\
     length new = 2%nat) /\
  stream_tree Examples.reloaded_catalog =
    stream_tree Examples.horizontal_catalog ++ stream_triangles Examples.reloaded_catalog /\
  river_outline Examples.reloaded_catalog = [] /\
  tria Examples.reloaded_catalog = unit_cell /\
  river_rect Examples.reloaded_catalog = unit_cell.
Proof.
  apply (read_streams_appends Examples.sqrt_id Examples.meet_lines
           Examples.zero_locals Examples.horizontal_file Examples.horizontal_catalog
           Examples.reloaded_catalog).
  vm_compute. reflexivity.
Defined.

Lemma bbox_loop_tight_witness :
  (0 ∈ [0; 0; 10; 10] /\ 10 ∈ [0; 0; 10; 10] /\
   (0 - 1) ∈ [0 - 1; 0 + 1; 0 - 1; 0 + 1] /\ (0 + 1) ∈ [0 - 1; 0 + 1; 0 - 1; 0 + 1]) /\
  forall j (x y : double),
    [0; 0; 10; 10] !! j = Some x -> [0 - 1; 0 + 1; 0 - 1; 0 + 1] !! j = Some y ->
    0 <= x /\ x <= 10 /\ 0 - 1 <= y /\ y <= 0 + 1.
Proof.
  apply (bbox_loop_tight [0; 0; 10; 10] [0 - 1; 0 + 1; 0 - 1; 0 + 1]
           {| bb_Xmin := 0; bb_Xmax := 10; bb_Ymin := 0 - 1; bb_Ymax := 0 + 1 |}).
  - reflexivity.
  - discriminate.
  - reflexivity.
  - repeat (constructor; [split; reflexivity|]); constructor.
  - repeat (constructor; [split; reflexivity|]); constructor.
Defined.

Lemma bbox_loop_sentinel_witness :
  let far := {| bb_Xmin := 100000000; bb_Xmax := 200000000;
                bb_Ymin := 0; bb_Ymax := 0 |} in
  (Forall (fun x => bb_Xmin bbox_start <= x) [200000000] ->
     bb_Xmin far = bb_Xmin bbox_start) /\
  (Forall (fun x => x <= bb_Xmax bbox_start) [200000000] ->
     bb_Xmax far = bb_Xmax bbox_start) /\
  (Forall (fun y => bb_Ymin bbox_start <= y) [0] -> bb_Ymin far = bb_Ymin bbox_start) /\
  (Forall (fun y => y <= bb_Ymax bbox_start) [0] -> bb_Ymax far = bb_Ymax bbox_start).
Proof.
  apply (bbox_loop_sentinel [200000000] 0 [0] bbox_start
           {| bb_Xmin := 100000000; bb_Xmax := 200000000; bb_Ymin := 0; bb_Ymax := 0 |}).
  reflexivity.
Defined.

Lemma create_river_outline_axis_aligned_witness :
  Streams.create_river_outline Examples.sqrt_id Examples.meet_lines
    (mkPoint2 3 0) (mkPoint2 3 8) 0.5 =
  ([3 - 0.5; 3 + 0.5; 3 - 0.5; 3 + 0.5], [0; 0; 8; 8]).
Proof.
  apply (create_river_outline_axis_aligned Examples.sqrt_id Examples.meet_lines
           (mkPoint2 3 0) (mkPoint2 3 8) 0.5).
  - intros [_ H]. vm_compute in H. discriminate.
  - left. reflexivity.
Defined.

Lemma read_streams_short_record_out_of_range_witness :
  Streams.read_streams Examples.sqrt_id Examples.meet_lines Examples.zero_locals
    (Some Examples.short_file) Streams_init = OutOfRange.
Proof.
  apply (read_streams_short_record_out_of_range Examples.sqrt_id Examples.meet_lines
           Examples.zero_locals Examples.short_file Streams_init 1 0 0 0 0.05 0.05 5 1 []);
    [reflexivity | lia | reflexivity | reflexivity | reflexivity].
Defined.

Lemma read_streams_too_few_lines_out_of_range_witness :
  Streams.read_streams Examples.sqrt_id Examples.meet_lines Examples.zero_locals
    (Some Examples.truncated_file) Streams_init = OutOfRange.
Proof.
  apply (read_streams_too_few_lines_out_of_range Examples.sqrt_id Examples.meet_lines
           Examples.zero_locals Examples.truncated_file Streams_init 2);
    [reflexivity | simpl; lia].
Defined.

(** * Further properties of the point query and of the scratch cells *)

Lemma setup_river_rect_loop_result outline (c c' : list Point2) :
  length c = 4%nat ->
  setup_river_rect_loop vertices_per_cell 0 outline c = Ok c' ->
  c' = outline_cell outline /\ (4 <= length outline)%nat.
Proof.
  intros L. destruct c as [|? [|? [|? [|? [|? ?]]]]]; try discriminate.
  unfold vertices_per_cell, outline_cell. cbn [setup_river_rect_loop].
  destruct outline as [|o0 [|o1 [|o2 [|o3 ?]]]]; try discriminate.
  simpl. intros H. inversion H; subst. split; [reflexivity | lia].
Qed.

(** X10. On an object whose scratch cell [river_rect] has its four vertices,
    [setup_river_rect] shapes the cell from the first four points of the
    outline and touches nothing else; an outline of fewer than four points is
    read past its end. *)
Theorem setup_river_rect_shapes outline s :
  length (river_rect s) = 4%nat ->
  ((4 <= length outline)%nat ->
     setup_river_rect outline s = Ok (set_river_rect (outline_cell outline) s)) /\
  ((length outline < 4)%nat -> setup_river_rect outline s = OutOfRange).
Proof.
  intros L. unfold setup_river_rect.
  destruct (river_rect s) as [|? [|? [|? [|? [|? ?]]]]]; try discriminate.
  unfold vertices_per_cell, outline_cell. cbn [setup_river_rect_loop].
  split; intros Ho.
  - destruct outline as [|o0 [|o1 [|o2 [|o3 ?]]]]; simpl in Ho; try lia. reflexivity.
  - destruct outline as [|o0 [|o1 [|o2 [|o3 ?]]]]; simpl in Ho; try lia; reflexivity.
Qed.

(** X11. [setup_cell] does the same for the scratch cell [tria] and a mesh
    face: it copies the x and y of the first four vertices of the face,
    dropping their height, and touches nothing else; a face of fewer than four
    vertices is read past its end. *)
Theorem setup_cell_shapes top_face s :
  length (tria s) = 4%nat ->
  ((4 <= length top_face)%nat ->
     setup_cell top_face s = Ok (set_tria (face_cell top_face) s)) /\
  ((length top_face < 4)%nat -> setup_cell top_face s = OutOfRange).
Proof.
  intros L. unfold setup_cell.
  destruct (tria s) as [|? [|? [|? [|? [|? ?]]]]]; try discriminate.
  unfold vertices_per_cell, face_cell. cbn [setup_cell_loop].
  split; intros Ho.
  - destruct top_face as [|o0 [|o1 [|o2 [|o3 ?]]]]; simpl in Ho; try lia. reflexivity.
  - destruct top_face as [|o0 [|o1 [|o2 [|o3 ?]]]]; simpl in Ho; try lia; reflexivity.
Qed.

(** X15. [read_streams] never writes [river_outline]: whatever the file,
    whether it can be opened or not, a call that completes leaves
    [river_outline] as it was, and on an object just constructed it is
    still empty after the call. *)
Theorem read_streams_leaves_river_outline sqrt line_line_intersection
    uninit datafile s flag s' :
  Streams.read_streams sqrt line_line_intersection uninit datafile s = Ok (flag, s') ->
  river_outline s' = river_outline s /\
  (s = Streams_init -> river_outline s' = []).
Proof.
  intros Hload. apply read_streams_river_outline in Hload.
  split; [exact Hload|]. intros ->. exact Hload.
Qed.

Lemma read_streams_leaves_river_outline_witness :
  river_outline Examples.horizontal_catalog = river_outline Streams_init /\
  (Streams_init = Streams_init -> river_outline Examples.horizontal_catalog = []).
Proof.
  apply (read_streams_leaves_river_outline Examples.sqrt_id Examples.meet_lines
           Examples.zero_locals (Some Examples.horizontal_file)
           Streams_init true Examples.horizontal_catalog).
  reflexivity.
Defined.

Lemma setup_river_rect_shapes_witness :
  let outline := [mkPoint2 0 (-1); mkPoint2 0 1; mkPoint2 10 (-1); mkPoint2 10 1] in
  ((4 <= length outline)%nat ->
     setup_river_rect outline Examples.horizontal_catalog =
     Ok (set_river_rect (outline_cell outline) Examples.horizontal_catalog)) /\
  ((length outline < 4)%nat ->
     setup_river_rect outline Examples.horizontal_catalog = OutOfRange).
Proof.
  apply (setup_river_rect_shapes
           [mkPoint2 0 (-1); mkPoint2 0 1; mkPoint2 10 (-1); mkPoint2 10 1]
           Examples.horizontal_catalog).
  reflexivity.
Defined.

Lemma setup_cell_shapes_witness :
  ((4 <= length Examples.top_face_at_30)%nat ->
     setup_cell Examples.top_face_at_30 Streams_init =
     Ok (set_tria (face_cell Examples.top_face_at_30) Streams_init)) /\
  ((length Examples.top_face_at_30 < 4)%nat ->
     setup_cell Examples.top_face_at_30 Streams_init = OutOfRange).
Proof.
  apply (setup_cell_shapes Examples.top_face_at_30 Streams_init). reflexivity.
Defined.

(** * Further properties of the recharge of a cell *)

Lemma sorted_same_elements (l1 : list nat) : forall l2,
  StronglySorted lt l1 -> StronglySorted lt l2 ->
  (forall x, x ∈ l1 <-> x ∈ l2) -> l1 = l2.
Proof.
  induction l1 as [|x l1 IH]; intros l2 S1 S2 Hsame.
  - destruct l2 as [|y l2]; [reflexivity|].
    assert (H : y ∈ @nil nat) by (apply Hsame; left). inversion H.
  - destruct l2 as [|y l2].
    { assert (H : x ∈ @nil nat) by (apply Hsame; left). inversion H. }
    inversion S1 as [|? ? S1' A1]; subst. inversion S2 as [|? ? S2' A2]; subst.
    rewrite Forall_forall in A1, A2.
    assert (Hxy : x = y).
    { assert (Hx : x ∈ y :: l2) by (apply Hsame; left).
      assert (Hy : y ∈ x :: l1) by (apply Hsame; left).
      apply elem_of_cons in Hx, Hy.
      destruct Hx as [Hx|Hx]; [exact Hx|]. destruct Hy as [Hy|Hy]; [congruence|].
      specialize (A1 _ Hy). specialize (A2 _ Hx). lia. }
    subst y. f_equal. apply IH; [assumption | assumption |].
    intros z. split; intros Hz.
    + assert (H : z ∈ x :: l2) by (apply Hsame; right; exact Hz).
      apply elem_of_cons in H. destruct H as [->|H]; [|exact H].
      specialize (A1 _ Hz). lia.
    + assert (H : z ∈ x :: l1) by (apply Hsame; right; exact Hz).
      apply elem_of_cons in H. destruct H as [->|H]; [|exact H].
      specialize (A2 _ Hz). lia.
Qed.

Lemma map_assign_diagonal k (m : int_map) :
  Forall (fun e => fst e = snd e) m -> Forall (fun e => fst e = snd e) (map_assign k k m).
Proof.
  induction m as [|[k0 v0] m IH]; simpl; intros Hd.
  - repeat constructor.
  - inversion Hd as [|? ? H0 Hd']; subst.
    destruct (k <? k0)%nat; [constructor; [reflexivity | exact Hd]|].
    destruct (k =? k0)%nat; constructor; auto.
Qed.

Lemma collect_unique_ids_diagonal s ids : forall m m',
  collect_unique_ids s ids m = Ok m' ->
  Forall (fun e => fst e = snd e) m -> Forall (fun e => fst e = snd e) m'.
Proof.
  induction ids as [|t ids IH]; intros m m' H Hd.
  - inversion H; subst. exact Hd.
  - cbn [collect_unique_ids] in H. bind_inv H as k Hk.
    eapply IH; [exact H|]. apply map_assign_diagonal. exact Hd.
Qed.

Lemma diagonal_keys (m : int_map) :
  Forall (fun e => fst e = snd e) m -> m = (fun k => (k, k)) <$> m.*1.
Proof.
  induction 1 as [|[k v] m Hk _ IH]; [reflexivity|].
  simpl in *. subst v. f_equal. exact IH.
Qed.

Lemma collect_unique_ids_in_range s ids : forall m m',
  collect_unique_ids s ids m = Ok m' ->
  Forall (fun t => (t < length (stream_ids s))%nat) ids.
Proof.
  induction ids as [|t ids IH]; intros m m' H; [constructor|].
  cbn [collect_unique_ids] in H. bind_inv H as k Hk.
  constructor; [eapply at_length; eauto | eapply IH; eauto].
Qed.

(** The map of unique ids depends on the triangles reported, not on their
    order or on how often each is named. *)
Lemma collect_unique_ids_same_elements s ids1 ids2 :
  (forall t, t ∈ ids1 <-> t ∈ ids2) ->
  collect_unique_ids s ids1 [] = collect_unique_ids s ids2 [].
Proof.
  intros Hsame.
  destruct (collect_unique_ids s ids1 []) as [m1|] eqn:H1,
           (collect_unique_ids s ids2 []) as [m2|] eqn:H2.
  - f_equal.
    pose proof (collect_unique_ids_diagonal _ _ _ _ H1 ltac:(constructor)) as D1.
    pose proof (collect_unique_ids_diagonal _ _ _ _ H2 ltac:(constructor)) as D2.
    apply collect_unique_ids_spec in H1; [|constructor].
    apply collect_unique_ids_spec in H2; [|constructor].
    destruct H1 as [S1 I1]. destruct H2 as [S2 I2].
    rewrite (diagonal_keys m1 D1), (diagonal_keys m2 D2). f_equal.
    apply sorted_same_elements; [assumption | assumption |].
    intros k. rewrite I1, I2. split.
    + intros [H|(t & Ht & E)]; [inversion H|]. right. exists t. split; [apply Hsame|]; auto.
    + intros [H|(t & Ht & E)]; [inversion H|]. right. exists t. split; [apply Hsame|]; auto.
  - exfalso. apply collect_unique_ids_in_range in H1.
    assert (Hr : Forall (fun t => (t < length (stream_ids s))%nat) ids2).
    { rewrite Forall_forall in *. intros t Ht. apply H1, Hsame, Ht. }
    destruct (collect_unique_ids_ok s ids2 [] Hr) as [m Hm]. congruence.
  - exfalso. apply collect_unique_ids_in_range in H2.
    assert (Hr : Forall (fun t => (t < length (stream_ids s))%nat) ids1).
    { rewrite Forall_forall in *. intros t Ht. apply H2, Hsame, Ht. }
    destruct (collect_unique_ids_ok s ids1 [] Hr) as [m Hm]. congruence.
  - reflexivity.
Qed.

(** X16. Two tree queries that return the same flag and name the same
    triangles, in whatever order and however often, give the same result of
    [get_stream_recharge]: the same flag, the same output vectors and the same
    log, or an access out of range in both cases. *)
Theorem get_stream_recharge_order_irrelevant find1 find2 polyXpoly s xp yp :
  fst (find1 (stream_tree s) (stream_triangles s) xp yp) =
  fst (find2 (stream_tree s) (stream_triangles s) xp yp) ->
  (forall t, t ∈ snd (find1 (stream_tree s) (stream_triangles s) xp yp) <->
             t ∈ snd (find2 (stream_tree s) (stream_triangles s) xp yp)) ->
  Streams.get_stream_recharge find1 polyXpoly s xp yp =
  Streams.get_stream_recharge find2 polyXpoly s xp yp.
Proof.
  unfold Streams.get_stream_recharge.
  destruct (find1 _ _ xp yp) as [tf1 ids1], (find2 _ _ xp yp) as [tf2 ids2]. simpl.
  intros -> Hsame. destruct tf2; [|reflexivity].
  rewrite (collect_unique_ids_same_elements s ids1 ids2 Hsame). reflexivity.
Qed.

Section RechargeExtras.

Variable find_intersection_in_AABB_TREE :
  list ine_Triangle -> list ine_Triangle -> list double -> list double ->
  bool * list nat.
Variable polyXpoly :
  list double -> list double -> list double -> list double -> clip_result.

Local Abbreviation get_stream_recharge :=
  (Streams.get_stream_recharge find_intersection_in_AABB_TREE polyXpoly).

(** X17. When [get_stream_recharge] returns, the flag is the one that the
    tree query returned, whether or not any candidate added a contribution;
    the three output vectors have the same size; and when the flag is false
    they are empty and nothing is logged. *)
Theorem get_stream_recharge_output_shape s xp yp tf r :
  get_stream_recharge s xp yp = Ok (tf, r) ->
  tf = fst (find_intersection_in_AABB_TREE (stream_tree s) (stream_triangles s) xp yp) /\
  length (r_xc r) = length (r_Q r) /\ length (r_yc r) = length (r_Q r) /\
  (tf = false -> r = no_recharge).
Proof.
  intros H.
  destruct (get_stream_recharge_spec _ _ _ _ _ _ _ H) as (cands & _ & _ & (X & Y & Q) & _).
  rewrite X, Y, Q, !length_fmap.
  revert H. unfold Streams.get_stream_recharge.
  destruct (find_intersection_in_AABB_TREE _ _ xp yp) as [tf' ids]. simpl.
  destruct tf'; intros H.
  - bind_inv H as m Hm. bind_inv H as r1 Hr. inversion H; subst.
    repeat split; try reflexivity. discriminate.
  - inversion H; subst. repeat split; reflexivity.
Qed.

End RechargeExtras.

Lemma get_stream_recharge_order_irrelevant_witness :
  Streams.get_stream_recharge Examples.report_both Examples.clip_or_throw
    Examples.two_catalog Examples.footprint_x Examples.footprint_y =
  Streams.get_stream_recharge Examples.report_both_shuffled Examples.clip_or_throw
    Examples.two_catalog Examples.footprint_x Examples.footprint_y.
Proof.
  apply (get_stream_recharge_order_irrelevant Examples.report_both
           Examples.report_both_shuffled Examples.clip_or_throw Examples.two_catalog
           Examples.footprint_x Examples.footprint_y).
  - reflexivity.
  - intros t. simpl. rewrite !elem_of_cons. tauto.
Defined.

Lemma get_stream_recharge_output_shape_witness :
  true = fst (Examples.report_both (stream_tree Examples.two_catalog)
                (stream_triangles Examples.two_catalog)
                Examples.footprint_x Examples.footprint_y) /\
  length [2.5] = length [1 * 7] /\ length [5] = length [1 * 7] /\
  (true = false ->
   {| r_xc := [2.5]; r_yc := [5]; r_Q := [1 * 7];
      r_cout := [Boost_failed_to_find_intersection] |} = no_recharge).
Proof.
  apply (get_stream_recharge_output_shape Examples.report_both Examples.clip_or_throw
           Examples.two_catalog Examples.footprint_x Examples.footprint_y true
           {| r_xc := [2.5]; r_yc := [5]; r_Q := [1 * 7];
              r_cout := [Boost_failed_to_find_intersection] |}).
  reflexivity.
Defined.

(** * Further properties of the flow driver *)

Lemma add_to_lookup (i k : nat) (x : double) (v : Vector) :
  add_to i x v !! k = if decide (i = k) then (fun y => y + x) <$> v !! k else v !! k.
Proof.
  unfold add_to. destruct (decide (i = k)) as [->|Hne].
  - apply list_lookup_alter_eq.
  - apply list_lookup_alter_ne. exact Hne.
Qed.

(** A loop that adds [t i] to the entry [i], for the indices of a list
    without repetition. *)
Lemma add_each_lookup (t : nat -> double) (idx : list nat) : forall (v : Vector) k,
  NoDup idx ->
  foldl (fun rhs i => add_to i (t i) rhs) v idx !! k =
  if decide (k ∈ idx) then (fun y => y + t k) <$> v !! k else v !! k.
Proof.
  induction idx as [|a idx IH]; intros v k Hnd.
  - simpl. destruct (decide (k ∈ [])) as [H|_]; [inversion H | reflexivity].
  - inversion Hnd as [|? ? Ha Hnd']; subst. cbn [foldl].
    rewrite (IH _ _ Hnd'), add_to_lookup.
    destruct (decide (a = k)) as [->|Hne].
    + destruct (decide (k ∈ idx)) as [H|_]; [contradiction|].
      destruct (decide (k ∈ k :: idx)) as [_|H]; [reflexivity|].
      exfalso. apply H. left.
    + destruct (decide (k ∈ idx)) as [H|H];
        destruct (decide (k ∈ a :: idx)) as [H'|H']; try reflexivity.
      * exfalso. apply H'. right. exact H.
      * exfalso. apply elem_of_cons in H'. destruct H' as [->|H']; [congruence | contradiction].
Qed.

(** The same loop, run once for each [q] of a list. *)
Lemma add_each_q_lookup (t : nat -> nat -> double) (d : nat) (qs : list nat) :
  forall (v : Vector) k, (k < d)%nat ->
  foldl (fun rhs q => foldl (fun rhs i => add_to i (t q i) rhs) rhs (seq 0 d)) v qs !! k =
  (fun y => foldl (fun acc q => acc + t q k) y qs) <$> v !! k.
Proof.
  induction qs as [|q qs IH]; intros v k Hk.
  - simpl. destruct (v !! k); reflexivity.
  - cbn [foldl]. rewrite (IH _ _ Hk), (add_each_lookup (t q)) by apply NoDup_seq.
    destruct (decide (k ∈ seq 0 d)) as [_|H].
    + destruct (v !! k); reflexivity.
    + exfalso. apply H. apply elem_of_seq. lia.
Qed.

Lemma add_to_entry_lookup (a b i j : nat) (x : double) (m : list (list Q)) :
  (add_to_entry a b x m !! i ≫= fun row : list Q => row !! j) =
  if decide (a = i /\ b = j)
  then (fun y => y + x) <$> (m !! i ≫= fun row : list Q => row !! j)
  else m !! i ≫= fun row : list Q => row !! j.
Proof.
  unfold add_to_entry, FullMatrix, Vector. destruct (decide (a = i)) as [->|Hne].
  - rewrite list_lookup_alter_eq. destruct (m !! i) as [row|]; simpl.
    + rewrite add_to_lookup. destruct (decide (b = j)) as [->|Hb].
      * destruct (decide (i = i /\ j = j)) as [_|H]; [reflexivity | exfalso; auto].
      * destruct (decide (i = i /\ b = j)) as [[_ H]|_]; [contradiction | reflexivity].
    + destruct (decide (i = i /\ b = j)); reflexivity.
  - rewrite list_lookup_alter_ne by exact Hne.
    destruct (decide (a = i /\ b = j)) as [[H _]|_]; [contradiction | reflexivity].
Qed.

Lemma add_row_lookup (t : nat -> double) (a : nat) (js : list nat) :
  forall (m : list (list Q)) i j, NoDup js ->
  (foldl (fun m j => add_to_entry a j (t j) m) m js !! i ≫= fun row : list Q => row !! j) =
  if decide (a = i /\ j ∈ js)
  then (fun y => y + t j) <$> (m !! i ≫= fun row : list Q => row !! j)
  else m !! i ≫= fun row : list Q => row !! j.
Proof.
  induction js as [|b js IH]; intros m i j Hnd.
  - simpl. destruct (decide (a = i /\ j ∈ [])) as [[_ H]|_]; [inversion H | reflexivity].
  - inversion Hnd as [|? ? Hb Hnd']; subst. cbn [foldl].
    rewrite (IH _ _ _ Hnd'), add_to_entry_lookup.
    destruct (decide (a = i)) as [->|Hne].
    + destruct (decide (b = j)) as [->|Hbj].
      * destruct (decide (i = i /\ j ∈ js)) as [[_ H]|_]; [contradiction|].
        destruct (decide (i = i /\ j = j)) as [_|H]; [|exfalso; auto].
        destruct (decide (i = i /\ j ∈ j :: js)) as [_|H]; [reflexivity|].
        exfalso. apply H. split; [reflexivity | left].
      * destruct (decide (i = i /\ b = j)) as [[_ H]|_]; [contradiction|].
        destruct (decide (i = i /\ j ∈ js)) as [[_ H]|H];
          destruct (decide (i = i /\ j ∈ b :: js)) as [[_ H']|H']; try reflexivity.
        -- exfalso. apply H'. split; [reflexivity | right; exact H].
        -- exfalso. apply elem_of_cons in H'. destruct H' as [->|H']; [congruence|].
           apply H. auto.
    + destruct (decide (a = i /\ j ∈ js)) as [[H _]|_]; [contradiction|].
      destruct (decide (a = i /\ b = j)) as [[H _]|_]; [contradiction|].
      destruct (decide (a = i /\ j ∈ b :: js)) as [[H _]|_]; [contradiction | reflexivity].
Qed.

Lemma add_rows_lookup (t : nat -> nat -> double) (js : list nat) (rows : list nat) :
  forall (m : list (list Q)) i j, NoDup rows -> NoDup js ->
  (foldl (fun m a => foldl (fun m j => add_to_entry a j (t a j) m) m js) m rows !! i
     ≫= fun row : list Q => row !! j) =
  if decide (i ∈ rows /\ j ∈ js)
  then (fun y => y + t i j) <$> (m !! i ≫= fun row : list Q => row !! j)
  else m !! i ≫= fun row : list Q => row !! j.
Proof.
  induction rows as [|a rows IH]; intros m i j Hnd Hjs.
  - simpl. destruct (decide (i ∈ [] /\ j ∈ js)) as [[H _]|_]; [inversion H | reflexivity].
  - inversion Hnd as [|? ? Ha Hnd']; subst. cbn [foldl].
    rewrite (IH _ _ _ Hnd' Hjs), (add_row_lookup (t a)) by exact Hjs.
    destruct (decide (a = i)) as [->|Hne].
    + destruct (decide (i ∈ rows /\ j ∈ js)) as [[H _]|_]; [contradiction|].
      destruct (decide (i = i /\ j ∈ js)) as [[_ H]|H];
        destruct (decide (i ∈ i :: rows /\ j ∈ js)) as [[_ H']|H']; try reflexivity.
      * exfalso. apply H'. split; [left | exact H].
      * exfalso. apply H. auto.
    + destruct (decide (a = i /\ j ∈ js)) as [[H _]|_]; [contradiction|].
      destruct (decide (i ∈ rows /\ j ∈ js)) as [[H1 H2]|H];
        destruct (decide (i ∈ a :: rows /\ j ∈ js)) as [[H1' H2']|H']; try reflexivity.
      * exfalso. apply H'. split; [right; exact H1 | exact H2].
      * exfalso. apply elem_of_cons in H1'. destruct H1' as [->|H1']; [congruence|].
        apply H. auto.
Qed.

Lemma add_rows_q_lookup (t : nat -> nat -> nat -> double) (d : nat) (qs : list nat) :
  forall (m : list (list Q)) i j, (i < d)%nat -> (j < d)%nat ->
  (foldl (fun m q =>
            foldl (fun m a => foldl (fun m j => add_to_entry a j (t q a j) m) m (seq 0 d))
              m (seq 0 d)) m qs !! i ≫= fun row : list Q => row !! j) =
  (fun y => foldl (fun acc q => acc + t q i j) y qs)
    <$> (m !! i ≫= fun row : list Q => row !! j).
Proof.
  induction qs as [|q qs IH]; intros m i j Hi Hj.
  - assert (F : forall o : option Q, o = (fun y : Q => y) <$> o) by (intros [|]; reflexivity).
    apply F.
  - cbn [foldl]. rewrite (IH _ _ _ Hi Hj), (add_rows_lookup (t q)) by apply NoDup_seq.
    destruct (decide (i ∈ seq 0 d /\ j ∈ seq 0 d)) as [_|H].
    + destruct (m !! i ≫= _); reflexivity.
    + exfalso. apply H. split; apply elem_of_seq; lia.
Qed.

Lemma add_to_entry_length a b x (m : list (list Q)) :
  length (add_to_entry a b x m) = length m.
Proof. apply length_alter. Qed.

Section FlowExtras.

Variable dim : nat.
Variable SparseMatrix : Type.
Variable ConstraintMatrix : Type.
Variable make_constraints : DoFHandler -> ConstraintMatrix.
Variable reinit_matrix : DoFHandler -> ConstraintMatrix -> SparseMatrix.
Variable wells_add_contributions : Vector -> DoFHandler -> ConstraintMatrix -> Vector.
Variable dofs_per_cell : nat.
Variable n_q_points : nat.
Variable n_face_q_points : nat.
Variable stiffness_term : Cell -> nat -> nat -> nat -> double.
Variable recharge_values : Cell -> nat -> nat -> double.
Variable recharge_weight : Cell -> nat -> double.
Variable shape_value : Cell -> nat -> nat -> nat -> double.
Variable face_JxW : Cell -> nat -> nat -> double.
Variable distribute_local_to_global :
  ConstraintMatrix -> FullMatrix -> Vector -> list nat ->
  SparseMatrix * Vector -> SparseMatrix * Vector.
Variable compress_matrix : SparseMatrix -> SparseMatrix.
Variable compress_vector : Vector -> Vector.
Variable SolverCG_solve : SolverControl -> SparseMatrix -> Vector -> solver_outcome.
Variable constraints_distribute : ConstraintMatrix -> Vector -> Vector.

Local Abbreviation state := (GWFLOW.GWFLOW SparseMatrix ConstraintMatrix).
Local Abbreviation top_faces_from := (GWFLOW.top_faces_from dim).
Local Abbreviation Q_rch :=
  (GWFLOW.Q_rch recharge_values recharge_weight shape_value face_JxW).
Local Abbreviation recharge_sum :=
  (GWFLOW.recharge_sum n_face_q_points recharge_values recharge_weight shape_value
     face_JxW).
Local Abbreviation face_recharge :=
  (GWFLOW.face_recharge dofs_per_cell n_face_q_points recharge_values recharge_weight
     shape_value face_JxW).
Local Abbreviation face_loop :=
  (GWFLOW.face_loop dim dofs_per_cell n_face_q_points recharge_values recharge_weight
     shape_value face_JxW).
Local Abbreviation cell_recharge :=
  (GWFLOW.cell_recharge dim dofs_per_cell n_face_q_points recharge_values
     recharge_weight shape_value face_JxW).
Local Abbreviation cell_stiffness :=
  (GWFLOW.cell_stiffness dofs_per_cell n_q_points stiffness_term).

Lemma face_recharge_lookup c i_face (v : Vector) k :
  (k < dofs_per_cell)%nat ->
  face_recharge c i_face v !! k =
  (fun y => sum_from y (fun q => Q_rch c i_face q k) n_face_q_points) <$> v !! k.
Proof.
  intros Hk. unfold GWFLOW.face_recharge, sum_from.
  apply (add_each_q_lookup (fun q i => Q_rch c i_face q i)). exact Hk.
Qed.

Lemma face_recharge_length c i_face (v : Vector) :
  length (face_recharge c i_face v) = length v.
Proof.
  unfold GWFLOW.face_recharge.
  generalize (seq 0 n_face_q_points). intros qs. revert v.
  induction qs as [|q qs IH]; intros v; [reflexivity|].
  cbn [foldl]. rewrite IH. generalize (seq 0 dofs_per_cell). intros idx. revert v.
  induction idx as [|i idx IHi]; intros v; [reflexivity|].
  cbn [foldl]. rewrite IHi. apply length_alter.
Qed.

Lemma faces_recharge_lookup c k (faces : list nat) : forall (v : Vector),
  (k < dofs_per_cell)%nat ->
  foldl (fun rhs i_face => face_recharge c i_face rhs) v faces !! k =
  (fun y => foldl (fun acc i_face =>
                     sum_from acc (fun q => Q_rch c i_face q k) n_face_q_points) y faces)
    <$> v !! k.
Proof.
  induction faces as [|f faces IH]; intros v Hk.
  - simpl. destruct (v !! k); reflexivity.
  - cbn [foldl]. rewrite (IH _ Hk), (face_recharge_lookup _ _ _ _ Hk).
    destruct (v !! k); reflexivity.
Qed.

(** X18. The local right-hand side that the loop over the faces of a cell
    builds has [dofs_per_cell] entries; its entry [i] is the sum, over the
    boundary faces that pass the test on the boundary id and over the
    quadrature points of each, of [Q_rch], the product of the recharge value,
    the weight, the shape value and [JxW]. *)
Theorem face_loop_recharge_sum c cell_no i :
  (i < dofs_per_cell)%nat ->
  let cell_rhs := fst (face_loop c cell_no 0 (cell_faces c) (replicate dofs_per_cell 0, [])) in
  length cell_rhs = dofs_per_cell /\
  cell_rhs !! i = Some (recharge_sum c i (top_faces_from 0 (cell_faces c))).
Proof.
  intros Hi. simpl. rewrite face_loop_spec. cbn [fst]. split.
  - generalize (top_faces_from 0 (cell_faces c)). intros faces.
    assert (H : forall (v : Vector),
              length (foldl (fun rhs j => face_recharge c j rhs) v faces) = length v).
    { induction faces as [|f faces IH]; intros v; [reflexivity|].
      cbn [foldl]. rewrite IH. apply face_recharge_length. }
    rewrite H. apply length_replicate.
  - rewrite (faces_recharge_lookup _ _ _ _ Hi). unfold Vector.
    rewrite lookup_replicate_2 by exact Hi.
    reflexivity.
Qed.

(** X19. The local matrix that the three nested loops fill has
    [dofs_per_cell] rows, and its entry [(i, j)] is the sum over the
    quadrature points, in their order, of
    [shape_grad(i,q) * K(q) * shape_grad(j,q) * JxW(q)]. *)
Theorem cell_stiffness_entries c i j :
  (i < dofs_per_cell)%nat -> (j < dofs_per_cell)%nat ->
  length (cell_stiffness c) = dofs_per_cell /\
  exists row, cell_stiffness c !! i = Some row /\
    row !! j = Some (sum_from 0 (fun q => stiffness_term c q i j) n_q_points).
Proof.
  intros Hi Hj. unfold GWFLOW.cell_stiffness, FullMatrix, sum_from. split.
  - generalize (seq 0 n_q_points). intros qs.
    assert (H : forall (m : list (list Q)),
      length (foldl (fun m q =>
         foldl (fun m i0 => foldl (fun m j0 => add_to_entry i0 j0 (stiffness_term c q i0 j0) m)
                              m (seq 0 dofs_per_cell)) m (seq 0 dofs_per_cell)) m qs)
      = length m).
    { induction qs as [|q qs IH]; intros m; [reflexivity|].
      cbn [foldl]. rewrite IH. generalize (seq 0 dofs_per_cell) at 2. intros rows. revert m.
      induction rows as [|a rows IHr]; intros m; [reflexivity|].
      cbn [foldl]. rewrite IHr. generalize (seq 0 dofs_per_cell). intros js. revert m.
      induction js as [|b js IHj]; intros m; [reflexivity|].
      cbn [foldl]. rewrite IHj. apply add_to_entry_length. }
    rewrite H. apply length_replicate.
  - pose proof (add_rows_q_lookup (fun q a b => stiffness_term c q a b) dofs_per_cell
                  (seq 0 n_q_points) (replicate dofs_per_cell (replicate dofs_per_cell 0))
                  i j Hi Hj) as E.
    rewrite (lookup_replicate_2 dofs_per_cell (replicate dofs_per_cell 0) i Hi) in E.
    simpl in E. rewrite (lookup_replicate_2 dofs_per_cell 0 j Hj) in E. simpl in E.
    match type of E with
    | (?M !! i ≫= _) = _ => destruct (M !! i) as [row|] eqn:Hrow; [|discriminate]
    end.
    exists row. split; [exact Hrow | exact E].
Qed.

Local Abbreviation distribute_cells :=
  (GWFLOW.distribute_cells dim SparseMatrix ConstraintMatrix dofs_per_cell n_q_points
     n_face_q_points stiffness_term recharge_values recharge_weight shape_value face_JxW
     distribute_local_to_global).
Local Abbreviation assemble_cell :=
  (GWFLOW.assemble_cell dim SparseMatrix ConstraintMatrix dofs_per_cell n_q_points
     n_face_q_points stiffness_term recharge_values recharge_weight shape_value face_JxW
     distribute_local_to_global).
Local Abbreviation cell_loop :=
  (GWFLOW.cell_loop dim SparseMatrix ConstraintMatrix dofs_per_cell n_q_points
     n_face_q_points stiffness_term recharge_values recharge_weight shape_value face_JxW
     distribute_local_to_global).
Local Abbreviation assemble :=
  (GWFLOW.assemble dim SparseMatrix ConstraintMatrix dofs_per_cell n_q_points
     n_face_q_points stiffness_term recharge_values recharge_weight shape_value face_JxW
     distribute_local_to_global compress_matrix compress_vector).
Local Abbreviation setup_system :=
  (GWFLOW.setup_system SparseMatrix ConstraintMatrix make_constraints reinit_matrix).
Local Abbreviation wells_step :=
  (GWFLOW.wells_step SparseMatrix ConstraintMatrix wells_add_contributions).
Local Abbreviation solve :=
  (GWFLOW.solve SparseMatrix ConstraintMatrix SolverCG_solve constraints_distribute).
Local Abbreviation Simulate :=
  (GWFLOW.Simulate dim SparseMatrix ConstraintMatrix make_constraints reinit_matrix
     wells_add_contributions dofs_per_cell n_q_points n_face_q_points stiffness_term
     recharge_values recharge_weight shape_value face_JxW distribute_local_to_global
     compress_matrix compress_vector SolverCG_solve constraints_distribute).

Lemma assemble_cell_system n c (g : state) :
  (system_matrix (assemble_cell n c g), system_rhs (assemble_cell n c g)) =
  if is_locally_owned c
  then distribute_local_to_global (constraints g) (cell_stiffness c) (cell_recharge c)
         (get_dof_indices c) (system_matrix g, system_rhs g)
  else (system_matrix g, system_rhs g).
Proof.
  unfold GWFLOW.assemble_cell, GWFLOW.cell_recharge.
  destruct (is_locally_owned c); [|reflexivity].
  rewrite face_loop_spec. cbn [fst snd].
  destruct (distribute_local_to_global _ _ _ _ _) as [m rhs]. reflexivity.
Qed.

Lemma cell_loop_system cells : forall n (g : state),
  (system_matrix (cell_loop n cells g), system_rhs (cell_loop n cells g)) =
  distribute_cells (constraints g) cells (system_matrix g, system_rhs g).
Proof.
  induction cells as [|c cells IH]; intros n g; [reflexivity|].
  cbn [GWFLOW.cell_loop]. rewrite IH, assemble_cell_system.
  destruct (assemble_cell_frame dim SparseMatrix ConstraintMatrix dofs_per_cell n_q_points
              n_face_q_points stiffness_term recharge_values recharge_weight shape_value
              face_JxW distribute_local_to_global n c g) as (_ & -> & _).
  unfold GWFLOW.distribute_cells. cbn [List.filter].
  destruct (is_locally_owned c); reflexivity.
Qed.

Lemma assemble_system_eq (g : state) :
  system_matrix (snd (assemble g)) =
    compress_matrix
      (fst (distribute_cells (constraints g) (active_cells (dof_handler g))
              (system_matrix g, system_rhs g))) /\
  system_rhs (snd (assemble g)) =
    compress_vector
      (snd (distribute_cells (constraints g) (active_cells (dof_handler g))
              (system_matrix g, system_rhs g))).
Proof.
  unfold GWFLOW.assemble. cbn [snd system_matrix system_rhs GWFLOW.log GWFLOW.set_system].
  pose proof (cell_loop_system (active_cells (dof_handler g)) 0
                (log _ _ [ev_assemble] g)) as E.
  change (constraints (log SparseMatrix ConstraintMatrix [ev_assemble] g))
    with (constraints g) in E.
  change (system_matrix (log SparseMatrix ConstraintMatrix [ev_assemble] g))
    with (system_matrix g) in E.
  change (system_rhs (log SparseMatrix ConstraintMatrix [ev_assemble] g))
    with (system_rhs g) in E.
  rewrite <- E. split; reflexivity.
Qed.

(** X20. [assemble] hands to the constraints, in the order of the cells, the
    local matrix and local right-hand side of each locally owned cell, and of
    no other cell, starting from the system it finds; it then compresses the
    matrix and the vector.  It leaves the DoF handler, the constraints, the
    published solution and [top_boundary_ids] as they were. *)
Theorem assemble_system (g : state) :
  let sys := distribute_cells (constraints g) (active_cells (dof_handler g))
               (system_matrix g, system_rhs g) in
  system_matrix (snd (assemble g)) = compress_matrix (fst sys) /\
  system_rhs (snd (assemble g)) = compress_vector (snd sys) /\
  dof_handler (snd (assemble g)) = dof_handler g /\
  constraints (snd (assemble g)) = constraints g /\
  locally_relevant_solution (snd (assemble g)) = locally_relevant_solution g /\
  top_boundary_ids (snd (assemble g)) = top_boundary_ids g.
Proof.
  cbv zeta. destruct (assemble_system_eq g) as [-> ->].
  destruct (assemble_trace dim SparseMatrix ConstraintMatrix dofs_per_cell n_q_points
              n_face_q_points stiffness_term recharge_values recharge_weight shape_value
              face_JxW distribute_local_to_global compress_matrix compress_vector g)
    as (_ & -> & -> & -> & _).
  repeat split.
  unfold GWFLOW.assemble. cbn [snd top_boundary_ids GWFLOW.log GWFLOW.set_system].
  destruct (cell_loop_frame dim SparseMatrix ConstraintMatrix dofs_per_cell n_q_points
              n_face_q_points stiffness_term recharge_values recharge_weight shape_value
              face_JxW distribute_local_to_global (active_cells (dof_handler g)) 0
              (log _ _ [ev_assemble] g)) as (_ & _ & -> & _).
  reflexivity.
Qed.

(** X21. What [Simulate] solves and publishes depends on the incoming object
    through its DoF handler only: the system handed to the solver is built on
    the zero vector and the matrix of [setup_system], with the wells'
    contributions and then those of the locally owned cells, and compressed.
    When the solver converges the published solution is the solver's vector
    after [constraints.distribute]; when it does not, the published solution
    is the zero vector of [setup_system], not the solution of an earlier
    call. *)
Theorem Simulate_publishes iter (g : state) :
  let dh := dof_handler g in
  let cs := make_constraints dh in
  let sys := distribute_cells cs (active_cells dh)
               (reinit_matrix dh cs,
                wells_add_contributions (replicate (n_dofs dh) 0) dh cs) in
  match SolverCG_solve {| max_steps := n_dofs dh; tolerance := 1e-8 |}
          (compress_matrix (fst sys)) (compress_vector (snd sys)) with
  | Converged last_step x =>
      fst (Simulate iter g) = Normal /\
      locally_relevant_solution (snd (Simulate iter g)) = constraints_distribute cs x
  | NotConverged last_step last_residual =>
      fst (Simulate iter g) = Thrown (NoConvergence last_step last_residual) /\
      locally_relevant_solution (snd (Simulate iter g)) = replicate (n_dofs dh) 0
  end.
Proof.
  intros dh cs sys.
  set (g_src := snd (wells_step (snd (setup_system g)))).
  set (g_asm := snd (assemble g_src)).
  destruct (assemble_trace dim SparseMatrix ConstraintMatrix dofs_per_cell n_q_points
              n_face_q_points stiffness_term recharge_values recharge_weight shape_value
              face_JxW distribute_local_to_global compress_matrix compress_vector g_src)
    as (Hn & Hdh & Hc & Hsol & _).
  destruct (assemble_system_eq g_src) as [Hm Hrhs].
  fold g_asm in Hdh, Hc, Hsol, Hm, Hrhs.
  assert (Hsim : Simulate iter g =
            and_then SparseMatrix ConstraintMatrix solve (output _ _ iter) g_asm).
  { unfold GWFLOW.Simulate.
    rewrite (and_then_Normal _ _ setup_system) by reflexivity.
    rewrite (and_then_Normal _ _ wells_step) by reflexivity.
    rewrite (and_then_Normal _ _ assemble) by exact Hn. reflexivity. }
  rewrite Hsim. unfold GWFLOW.and_then. rewrite solve_eq.
  unfold GWFLOW.solver_control_of. rewrite Hdh, Hm, Hrhs, Hc.
  change (dof_handler g_src) with dh. change (constraints g_src) with cs.
  change (system_matrix g_src) with (reinit_matrix dh cs).
  change (system_rhs g_src) with (wells_add_contributions (replicate (n_dofs dh) 0) dh cs).
  fold sys.
  destruct (SolverCG_solve _ (compress_matrix (fst sys)) (compress_vector (snd sys)))
    as [n x|n res].
  - split; reflexivity.
  - split; [reflexivity|]. cbn [snd locally_relevant_solution GWFLOW.log]. rewrite Hsol.
    reflexivity.
Qed.

End FlowExtras.

Lemma face_loop_recharge_sum_witness :
  let cell_rhs :=
    fst (GWFLOW.face_loop 3 2 1 Examples.unit_face Examples.unit_weight Examples.unit_term
           Examples.unit_face Examples.one_cell 0 0 (cell_faces Examples.one_cell)
           (replicate 2 0, [])) in
  length cell_rhs = 2%nat /\
  cell_rhs !! 0%nat =
    Some (GWFLOW.recharge_sum 1 Examples.unit_face Examples.unit_weight Examples.unit_term
            Examples.unit_face Examples.one_cell 0
            (GWFLOW.top_faces_from 3 0 (cell_faces Examples.one_cell))).
Proof.
  apply (face_loop_recharge_sum 3 2 1 Examples.unit_face Examples.unit_weight
           Examples.unit_term Examples.unit_face Examples.one_cell 0 0).
  lia.
Defined.

Lemma cell_stiffness_entries_witness :
  length (GWFLOW.cell_stiffness 2 1 Examples.unit_term Examples.one_cell) = 2%nat /\
  exists row,
    GWFLOW.cell_stiffness 2 1 Examples.unit_term Examples.one_cell !! 0%nat = Some row /\
    row !! 1%nat = Some (sum_from 0 (fun q => Examples.unit_term Examples.one_cell q 0 1) 1).
Proof.
  apply (cell_stiffness_entries 2 1 Examples.unit_term Examples.one_cell 0 1); lia.
Defined.
